(** * A fixed-size worker pool: model of [thread_pool.h] / [thread_pool.cpp]

    The class [ThreadPool] owns a vector of worker threads, a FIFO queue of
    type-erased tasks, one mutex, one condition variable and a stop flag.
    Its member functions are embedded here as functions on an explicit
    state, one transition per source statement, and the threads are
    interleaved by a schedule (a list of events). *)

From Stdlib Require Import ZArith Lia.
From stdpp Require Import base list strings.

Open Scope Z_scope.

(** ** Callables, packaged tasks and futures *)

(** The memory that submitted callables capture by reference (the tests
    capture one atomic counter or flag). *)
Definition Env : Type := Z.

(** What a bound callable does when invoked: it returns or it throws. *)
Inductive result : Type :=
  | Return (v : Z)
  | Throw (what : string).

Definition callable : Type := Env -> Env * result.

(** The shared state behind a [std::packaged_task] / [std::future] pair. *)
Inductive outcome : Type :=
  | Value (v : Z)
  | Exception (what : string).

(** [std::packaged_task::operator()] stores a normal return with set_value
    and a thrown exception with set_exception. *)
Definition capture (r : result) : outcome :=
  match r with
  | Return v => Value v
  | Throw what => Exception what
  end.

(** An element of [tasks_]: the closure that enqueue emplaces, which holds
    the shared pointer to the packaged task ([chan] is the index of its
    shared state) and calls it; the packaged task wraps the bound callable
    [fn]. *)
Record task : Type := Task { chan : nat; fn : callable }.

(** [std::future]: it refers to a shared state until [get] releases it. *)
Record future : Type := Future { state : option nat }.

Inductive get_result : Type :=
  | Blocks                      (* the shared state is not ready yet *)
  | Returns (v : Z)
  | Rethrows (what : string)
  | NoState.                    (* valid() is false: future_error(no_state) *)

(** What [get] delivers for a stored outcome. *)
Definition deliver (o : outcome) : get_result :=
  match o with
  | Value v => Returns v
  | Exception what => Rethrows what
  end.

(** [std::future::get]: waits for the shared state to be ready, yields the
    value or rethrows the stored exception, and releases the shared state,
    after which [valid()] is false. *)
Definition get (f : future) (chs : list (option outcome)) : get_result * future :=
  match state f with
  | None => (NoState, f)
  | Some c =>
      match chs !! c with
      | Some (Some o) => (deliver o, Future None)
      | _ => (Blocks, f)
      end
  end.

(** ** The class *)

(** Where a worker thread stands in [workerLoop] (thread_pool.cpp:26-46). *)
Inductive wpc : Type :=
  | LoopTop                     (* l.28-30: [task] is empty, about to lock *)
  | CheckEmpty                  (* l.31: lock held, [if (tasks_.empty())] *)
  | Waiting                     (* l.32: blocked in [cv_.wait], lock released *)
  | Notified                    (* l.32: woken in [cv_.wait], must relock *)
  | CheckStop                   (* l.34: lock held, [if (stop_)] *)
  | CheckNonEmpty               (* l.37: lock held, [if (!tasks_.empty())] *)
  | Unlock (t : option task)    (* l.41: end of the locked scope *)
  | Guard (t : option task)     (* l.42: [if (task)] *)
  | Running (t : task)          (* l.43: inside [task()] *)
  | Terminated                  (* l.35: the thread function returned *)
  | Crashed.                    (* an exception escaped the thread function *)

(** An element of [workers_]. *)
Record thread : Type := Thread { pc : wpc; joinable : bool }.

(** The data members. The waiters of [cv_] are the workers at [Waiting].
    [mutex_] records the worker that owns the lock, if any: callers hold it
    only inside [enqueue], whose locked scope is one transition here. *)
Record ThreadPool : Type := Pool {
  workers_ : list thread;
  tasks_ : list task;
  mutex_ : option nat;
  stop_ : bool
}.

Definition with_workers (ws : list thread) (p : ThreadPool) : ThreadPool :=
  Pool ws (tasks_ p) (mutex_ p) (stop_ p).
Definition with_tasks (q : list task) (p : ThreadPool) : ThreadPool :=
  Pool (workers_ p) q (mutex_ p) (stop_ p).
Definition with_mutex (m : option nat) (p : ThreadPool) : ThreadPool :=
  Pool (workers_ p) (tasks_ p) m (stop_ p).
Definition with_stop (b : bool) (p : ThreadPool) : ThreadPool :=
  Pool (workers_ p) (tasks_ p) (mutex_ p) b.

Definition pc_of (i : nat) (p : ThreadPool) : option wpc :=
  pc <$> workers_ p !! i.

Definition set_pc (i : nat) (q : wpc) (p : ThreadPool) : ThreadPool :=
  match workers_ p !! i with
  | Some th => with_workers (<[i := Thread q (joinable th)]> (workers_ p)) p
  | None => p
  end.

(** thread_pool.cpp:3-10. The loop appends one thread per iteration; every
    new thread starts at the top of [workerLoop]. *)
Fixpoint spawn (n : nat) (ws : list thread) : list thread :=
  match n with
  | O => ws
  | S k => spawn k (ws ++ [Thread LoopTop true])
  end.

Definition ThreadPool_ctor (threadCount : nat) : ThreadPool :=
  let threadCount := if Nat.eqb threadCount 0 then 1%nat else threadCount in
  Pool (spawn threadCount []) [] None false.

(** thread_pool.cpp:22-24. *)
Definition size (p : ThreadPool) : nat := length (workers_ p).

(** [cv_.notify_one()]: [w] is the waiter that the condition variable
    picks; with no waiter the call has no effect. *)
Definition is_waiting (th : thread) : bool :=
  match pc th with Waiting => true | _ => false end.

Definition notify_one (w : option nat) (p : ThreadPool) : ThreadPool :=
  match w with
  | Some i =>
      match pc_of i p with
      | Some Waiting => set_pc i Notified p
      | _ => p
      end
  | None => p
  end.

(** The choice [w] is one the condition variable can make: a waiting
    worker, or nobody when nobody waits. *)
Definition notify_choice_ok (w : option nat) (p : ThreadPool) : bool :=
  match w with
  | Some i => match pc_of i p with Some Waiting => true | _ => false end
  | None => forallb (fun th => negb (is_waiting th)) (workers_ p)
  end.

(** [cv_.notify_all()]. *)
Definition wake (th : thread) : thread :=
  if is_waiting th then Thread Notified (joinable th) else th.

Definition notify_all (p : ThreadPool) : ThreadPool :=
  with_workers (map wake (workers_ p)) p.

(** ** The program state *)

(** How far the owner is in [~ThreadPool] (thread_pool.cpp:12-20). *)
Inductive dpc : Type :=
  | Alive                       (* the destructor has not been entered *)
  | StopWritten                 (* after l.13 [stop_ = true] *)
  | Broadcast                   (* after l.14 [cv_.notify_all()] *)
  | Destroyed.                  (* after the detach loop: the body returned *)

Record world : Type := World {
  pool : ThreadPool;
  env : Env;
  channels : list (option outcome);   (* shared states, by creation order *)
  dtor : dpc
}.

Definition with_pool (p : ThreadPool) (s : world) : world :=
  World p (env s) (channels s) (dtor s).

(** What a transition lets an observer see. *)
Inductive obs : Type :=
  | Enqueued (c : nat)          (* task with shared state [c] was pushed *)
  | Rejected                    (* [enqueue] threw *)
  | Dequeued (c : nat)          (* task [c] was popped from the front *)
  | Invoked (c : nat).          (* the callable of task [c] was run *)

(** ** enqueue (thread_pool.h:17-34) *)

Inductive error : Type := runtime_error (what : string).

(** The packaged task is created first; under the lock [stop_] is tested
    and the closure is appended; after the lock is released one waiter is
    notified and the future is returned. When the function throws, the
    packaged task it created dies with it and the pool is untouched. *)
Definition enqueue (f : callable) (w : option nat) (s : world)
  : world * (error + future) :=
  let c := length (channels s) in
  if stop_ (pool s) then
    (s, inl (runtime_error "ThreadPool is stopping"))
  else
    let p := with_tasks (tasks_ (pool s) ++ [Task c f]) (pool s) in
    (World (notify_one w p) (env s) (channels s ++ [None]) (dtor s),
     inr (Future (Some c))).

(** ** workerLoop (thread_pool.cpp:26-46), one statement at a time *)

Definition workerLoop_step (i : nat) (s : world) : option (world * list obs) :=
  let p := pool s in
  match pc_of i p with
  | None => None
  | Some LoopTop =>
      match mutex_ p with
      | None => Some (with_pool (set_pc i CheckEmpty (with_mutex (Some i) p)) s, [])
      | Some _ => None
      end
  | Some CheckEmpty =>
      match tasks_ p with
      | [] => Some (with_pool (set_pc i Waiting (with_mutex None p)) s, [])
      | _ :: _ => Some (with_pool (set_pc i CheckStop p) s, [])
      end
  | Some Waiting => None
  | Some Notified =>
      match mutex_ p with
      | None => Some (with_pool (set_pc i CheckStop (with_mutex (Some i) p)) s, [])
      | Some _ => None
      end
  | Some CheckStop =>
      if stop_ p then
        Some (with_pool (set_pc i Terminated (with_mutex None p)) s, [])
      else
        Some (with_pool (set_pc i CheckNonEmpty p) s, [])
  | Some CheckNonEmpty =>
      match tasks_ p with
      | [] => Some (with_pool (set_pc i (Unlock None) p) s, [])
      | t :: q =>
          Some (with_pool (set_pc i (Unlock (Some t)) (with_tasks q p)) s,
                [Dequeued (chan t)])
      end
  | Some (Unlock t) =>
      Some (with_pool (set_pc i (Guard t) (with_mutex None p)) s, [])
  | Some (Guard None) =>
      Some (with_pool (set_pc i LoopTop p) s, [])
  | Some (Guard (Some t)) =>
      Some (with_pool (set_pc i (Running t) p) s, [])
  | Some (Running t) =>
      match channels s !! chan t with
      | Some None =>
          let '(e, r) := fn t (env s) in
          Some (World (set_pc i LoopTop p) e
                      (<[chan t := Some (capture r)]> (channels s)) (dtor s),
                [Invoked (chan t)])
      | _ =>
          (* the packaged task was already invoked: future_error escapes *)
          Some (with_pool (set_pc i Crashed p) s, [])
      end
  | Some Terminated => None
  | Some Crashed => None
  end.

(** ** ~ThreadPool (thread_pool.cpp:12-20) *)

Definition detach (th : thread) : thread :=
  if joinable th then Thread (pc th) false else th.

Definition detach_all (p : ThreadPool) : ThreadPool :=
  with_workers (map detach (workers_ p)) p.

(** The whole body: the flag is written, all waiters are notified, every
    joinable worker is detached. No statement takes [mutex_] and none
    waits for a worker. *)
Definition ThreadPool_dtor (p : ThreadPool) : ThreadPool :=
  detach_all (notify_all (with_stop true p)).

Definition dtor_step (s : world) : option (world * list obs) :=
  match dtor s with
  | Alive =>
      Some (World (with_stop true (pool s)) (env s) (channels s) StopWritten, [])
  | StopWritten =>
      Some (World (notify_all (pool s)) (env s) (channels s) Broadcast, [])
  | Broadcast =>
      Some (World (detach_all (pool s)) (env s) (channels s) Destroyed, [])
  | Destroyed => None
  end.

(** ** Schedules *)

Inductive event : Type :=
  | EvWorker (i : nat)          (* worker [i] executes its next statement *)
  | EvEnqueue (f : callable) (w : option nat)
                                (* a caller runs [enqueue]; [w] is notified *)
  | EvSpurious (i : nat)        (* [cv_.wait] of worker [i] wakes spuriously *)
  | EvDestructor.               (* the owner executes the next statement of
                                   the destructor *)

Definition step (e : event) (s : world) : option (world * list obs) :=
  match e with
  | EvWorker i => workerLoop_step i s
  | EvEnqueue f w =>
      match mutex_ (pool s) with
      | Some _ => None
      | None =>
          if notify_choice_ok w (pool s) then
            match enqueue f w s with
            | (s', inl _) => Some (s', [Rejected])
            | (s', inr h) =>
                Some (s', match state h with Some c => [Enqueued c] | None => [] end)
            end
          else None
      end
  | EvSpurious i =>
      match pc_of i (pool s) with
      | Some Waiting => Some (with_pool (set_pc i Notified (pool s)) s, [])
      | _ => None
      end
  | EvDestructor => dtor_step s
  end.

Fixpoint run (tr : list event) (s : world) : option (world * list obs) :=
  match tr with
  | [] => Some (s, [])
  | e :: tr' =>
      match step e s with
      | None => None
      | Some (s1, o1) =>
          match run tr' s1 with
          | None => None
          | Some (s2, o2) => Some (s2, o1 ++ o2)
          end
      end
  end.

(** The program right after the constructor returned. *)
Definition boot (threadCount : nat) (e : Env) : world :=
  World (ThreadPool_ctor threadCount) e [] Alive.

(** ** The scenarios of the test file *)

(** A task that adds one to the captured counter (test_completes_all_tasks). *)
Definition incr : callable := fun c => (c + 1, Return 0).

(** A task that sets the captured flag when it finishes
    (test_destructor_waits_for_tasks). *)
Definition set_finished : callable := fun _ => (1, Return 0).

(** A task that throws. *)
Definition failing : callable := fun c => (c, Throw "boom").

(** One worker goes to sleep on the empty queue, is notified by a
    submission, dequeues the task and starts to execute it. *)
Definition start_first (f : callable) : list event :=
  [EvWorker 0; EvWorker 0; EvEnqueue f (Some 0%nat);
   EvWorker 0; EvWorker 0; EvWorker 0; EvWorker 0; EvWorker 0].

(** test_destructor_waits_for_tasks: a pool of two, one task, the caller
    spins until the task has started, then the pool goes out of scope. *)
Definition destructor_scenario : list event :=
  start_first set_finished ++ [EvDestructor; EvDestructor; EvDestructor].

(** A pool of one; two tasks are submitted; while the first one runs the
    owner enters the destructor; the worker then finishes the first task
    and goes round its loop. *)
Definition shutdown_scenario : list event :=
  [EvWorker 0; EvWorker 0; EvEnqueue incr (Some 0%nat); EvEnqueue incr None;
   EvWorker 0; EvWorker 0; EvWorker 0; EvWorker 0; EvWorker 0;
   EvDestructor;
   EvWorker 0; EvWorker 0; EvWorker 0; EvWorker 0].

(** The statements a worker executes, in order, from a wake-up to the next
    wait when it finds nothing to do. *)
Definition idle_path : list wpc :=
  [Notified; CheckStop; CheckNonEmpty; Unlock None; Guard None;
   LoopTop; CheckEmpty; Waiting].

(** A worker that has just been woken while the pool has nothing for it. *)
Definition woken_idle : world :=
  World (Pool [Thread Notified true] [] None false) 0 [] Alive.

(** A worker holds the lock between l.30 and l.41. *)
Definition first_lock : list event := [EvWorker 0].

(** ** Bookkeeping used by the statements *)

(** The task that a worker holds in its local variable [task]. *)
Definition held (q : wpc) : list task :=
  match q with
  | Unlock (Some t) | Guard (Some t) | Running t => [t]
  | _ => []
  end.

(** The tasks that were submitted and whose callable was not yet invoked:
    those in the queue and those in the hands of a worker. *)
Definition in_flight (p : ThreadPool) : list task :=
  tasks_ p ++ (workers_ p ≫= (held ∘ pc)).

(** Shared states in the order of submission, of removal from the queue,
    and of invocation, as an observer sees them. *)
Definition enq_ids (o : list obs) : list nat :=
  omap (fun x => match x with Enqueued c => Some c | _ => None end) o.

Definition deq_ids (o : list obs) : list nat :=
  omap (fun x => match x with Dequeued c => Some c | _ => None end) o.

Definition inv_ids (o : list obs) : list nat :=
  omap (fun x => match x with Invoked c => Some c | _ => None end) o.

(** How often the callable of task [c] was invoked. *)
Definition invocations (c : nat) (o : list obs) : nat :=
  count_occ Nat.eq_dec (inv_ids o) c.

(** The number of shared states that hold an outcome. *)
Fixpoint count_ready (chs : list (option outcome)) : nat :=
  match chs with
  | [] => 0
  | Some _ :: chs' => S (count_ready chs')
  | None :: chs' => count_ready chs'
  end.

(** A callable that adds one to the captured counter when invoked. *)
Definition increments (f : callable) : Prop := forall c, (f c).1 = c + 1.

(** Every submission of the schedule is such a callable. *)
Definition submits_increments (tr : list event) : Prop :=
  Forall (fun e => match e with EvEnqueue f _ => increments f | _ => True end) tr.

(** test_completes_all_tasks in small: a pool of one and two counting
    tasks, both run to completion. *)
Definition counting_scenario : list event :=
  [EvEnqueue incr None; EvEnqueue incr None;
   EvWorker 0; EvWorker 0; EvWorker 0; EvWorker 0;
   EvWorker 0; EvWorker 0; EvWorker 0;
   EvWorker 0; EvWorker 0; EvWorker 0; EvWorker 0;
   EvWorker 0; EvWorker 0; EvWorker 0].

(** A pool of one; a throwing task and a counting task are submitted; the
    worker has dequeued the throwing one and is about to finish it. *)
Definition failure_scenario : list event :=
  [EvWorker 0; EvWorker 0; EvEnqueue failing (Some 0%nat); EvEnqueue incr None;
   EvWorker 0; EvWorker 0; EvWorker 0; EvWorker 0; EvWorker 0].

(** ** Invariants *)

(** The four kinds of transition, by what they do to the tasks in flight,
    to the shared states and to the memory of the callables. *)
Inductive effect (e : event) (s s1 : world) (o1 : list obs) : Prop :=
  | eff_submit (f : callable) (w : option nat) :
      e = EvEnqueue f w ->
      in_flight (pool s1) ≡ₚ in_flight (pool s) ++ [Task (length (channels s)) f] ->
      channels s1 = channels s ++ [None] ->
      env s1 = env s ->
      o1 = [Enqueued (length (channels s))] ->
      effect e s s1 o1
  | eff_invoke (t : task) :
      in_flight (pool s) ≡ₚ t :: in_flight (pool s1) ->
      channels s !! chan t = Some None ->
      channels s1 = <[chan t := Some (capture (fn t (env s)).2)]> (channels s) ->
      env s1 = (fn t (env s)).1 ->
      o1 = [Invoked (chan t)] ->
      effect e s s1 o1
  | eff_crash (t : task) (i : nat) :
      in_flight (pool s) ≡ₚ t :: in_flight (pool s1) ->
      channels s !! chan t ≠ Some None ->
      pc_of i (pool s) = Some (Running t) ->
      channels s1 = channels s ->
      env s1 = env s ->
      o1 = [] ->
      effect e s s1 o1
  | eff_silent :
      in_flight (pool s1) ≡ₚ in_flight (pool s) ->
      channels s1 = channels s ->
      env s1 = env s ->
      enq_ids o1 = [] ->
      inv_ids o1 = [] ->
      effect e s s1 o1.

(** Whether shared state [c] holds an outcome, as a number. *)
Definition ready_at (c : nat) (chs : list (option outcome)) : nat :=
  match chs !! c with
  | Some (Some _) => 1
  | _ => 0
  end.

(** What holds of every state the pool reaches, together with what has
    been observed so far: tasks in flight have distinct, still empty
    shared states; shared states are numbered in submission order; the
    queue holds, in order, what was enqueued and not yet dequeued; a shared
    state holds an outcome exactly when its task was invoked, once. *)
Record coherent (s : world) (o : list obs) : Prop := Coherent {
  co_nodup : NoDup (chan <$> in_flight (pool s));
  co_fresh : Forall (fun t => channels s !! chan t = Some None)
                    (in_flight (pool s));
  co_enq : enq_ids o = seq 0 (length (channels s));
  co_fifo : enq_ids o = deq_ids o ++ (chan <$> tasks_ (pool s));
  co_once : forall c, invocations c o = ready_at c (channels s);
  co_total : length (inv_ids o) = count_ready (channels s)
}.

(** With counting tasks, the counter is the number of invocations. *)
Definition counting (e0 : Env) (s : world) (o : list obs) : Prop :=
  Forall (fun t => increments (fn t)) (in_flight (pool s))
  ∧ env s = e0 + Z.of_nat (length (inv_ids o)).

Definition counts (e : event) : Prop :=
  match e with EvEnqueue f _ => increments f | _ => True end.

(** The statements between the construction of the [std::unique_lock]
    (l.30) and the end of its scope (l.41). *)
Definition in_lock (q : wpc) : bool :=
  match q with
  | CheckEmpty | CheckStop | CheckNonEmpty | Unlock _ => true
  | _ => false
  end.

(** A worker stands inside the locked scope exactly when it owns the lock. *)
Definition lock_discipline (p : ThreadPool) : Prop :=
  forall i q, pc_of i p = Some q -> (in_lock q = true <-> mutex_ p = Some i).

(** A worker has locked and is about to test the queue; the owner runs
    the whole destructor body; only then does the worker find the queue
    empty and start to wait. *)
Definition late_wait_scenario : list event :=
  [EvWorker 0; EvDestructor; EvDestructor; EvDestructor; EvWorker 0].

(** * Properties *)

(** ** Frame lemmas for the field updates *)

Lemma pc_of_set_pc (i : nat) (q : wpc) (p : ThreadPool) :
  is_Some (pc_of i p) -> pc_of i (set_pc i q p) = Some q.
Proof.
  unfold pc_of, set_pc. intros [q0 H].
  destruct (workers_ p !! i) as [th|] eqn:E; [|discriminate].
  cbn. rewrite list_lookup_insert_eq; [done|].
  by eapply lookup_lt_Some.
Qed.

Lemma pc_of_set_pc_ne (i j : nat) (q : wpc) (p : ThreadPool) :
  i ≠ j -> pc_of j (set_pc i q p) = pc_of j p.
Proof.
  unfold pc_of, set_pc. intros Hne.
  destruct (workers_ p !! i) as [th|]; [|done].
  cbn. by rewrite list_lookup_insert_ne.
Qed.

Lemma set_pc_frame (i : nat) (q : wpc) (p : ThreadPool) :
  tasks_ (set_pc i q p) = tasks_ p
  ∧ mutex_ (set_pc i q p) = mutex_ p
  ∧ stop_ (set_pc i q p) = stop_ p
  ∧ size (set_pc i q p) = size p.
Proof.
  unfold set_pc, size. destruct (workers_ p !! i); cbn; [|done].
  by rewrite length_insert.
Qed.

Lemma tasks_set_pc i q p : tasks_ (set_pc i q p) = tasks_ p.
Proof. apply set_pc_frame. Qed.
Lemma mutex_set_pc i q p : mutex_ (set_pc i q p) = mutex_ p.
Proof. apply set_pc_frame. Qed.
Lemma stop_set_pc i q p : stop_ (set_pc i q p) = stop_ p.
Proof. apply set_pc_frame. Qed.
Lemma size_set_pc i q p : size (set_pc i q p) = size p.
Proof. apply set_pc_frame. Qed.

Lemma pc_of_with_mutex i m p : pc_of i (with_mutex m p) = pc_of i p.
Proof. done. Qed.
Lemma pc_of_with_tasks i q p : pc_of i (with_tasks q p) = pc_of i p.
Proof. done. Qed.
Lemma pc_of_with_stop i b p : pc_of i (with_stop b p) = pc_of i p.
Proof. done. Qed.

Create Rewrite HintDb pool.
#[local] Hint Rewrite tasks_set_pc mutex_set_pc stop_set_pc size_set_pc
  pc_of_with_mutex pc_of_with_tasks pc_of_with_stop : pool.

(** Brings the next transition of worker [i] into evaluated form, given its
    program counter as hypothesis [H]. *)
Ltac worker_at H :=
  unfold step, workerLoop_step; cbn [pool with_pool env channels dtor];
  rewrite ?pc_of_set_pc; autorewrite with pool; rewrite ?H;
  cbn [tasks_ mutex_ stop_ with_mutex with_tasks with_stop].

Lemma size_notify_one w p : size (notify_one w p) = size p.
Proof.
  unfold notify_one. destruct w as [i|]; [|done].
  destruct (pc_of i p) as [[]|]; try done. apply size_set_pc.
Qed.

Lemma size_notify_all p : size (notify_all p) = size p.
Proof. unfold size, notify_all. cbn. by rewrite length_map. Qed.

Lemma size_detach_all p : size (detach_all p) = size p.
Proof. unfold size, detach_all. cbn. by rewrite length_map. Qed.

Lemma spawn_shape (n : nat) (ws : list thread) :
  spawn n ws = ws ++ replicate n (Thread LoopTop true).
Proof.
  revert ws. induction n as [|n IH]; intros ws; cbn.
  - by rewrite app_nil_r.
  - by rewrite IH, <- app_assoc.
Qed.

(** No transition adds a thread to [workers_] or removes one. *)
Lemma step_size (e : event) (s s' : world) (o : list obs) :
  step e s = Some (s', o) -> size (pool s') = size (pool s).
Proof.
  destruct e as [i|f w|i|]; cbn.
  - unfold workerLoop_step.
    destruct (pc_of i (pool s)) as [[| | | | | |t|[t|]|t| |]|]; try discriminate;
      repeat match goal with
        | |- context [match ?x with _ => _ end] => destruct x
        end;
      intros [= <- <-]; cbn [pool with_pool]; autorewrite with pool; done.
  - destruct (mutex_ (pool s)); [discriminate|].
    destruct (notify_choice_ok w (pool s)); [|discriminate].
    unfold enqueue. destruct (stop_ (pool s)).
    + by intros [= <- <-].
    + intros [= <- <-]. cbn [pool]. by rewrite size_notify_one.
  - destruct (pc_of i (pool s)) as [[]|]; try discriminate.
    intros [= <- <-]. cbn [pool with_pool]. by autorewrite with pool.
  - unfold dtor_step. destruct (dtor s); try discriminate;
      intros [= <- <-]; cbn [pool];
      rewrite ?size_notify_all, ?size_detach_all; done.
Qed.

Lemma run_size (tr : list event) (s s' : world) (o : list obs) :
  run tr s = Some (s', o) -> size (pool s') = size (pool s).
Proof.
  revert s o. induction tr as [|e tr IH]; intros s o; cbn.
  - by intros [= <- <-].
  - destruct (step e s) as [[s1 o1]|] eqn:E1; [|discriminate].
    destruct (run tr s1) as [[s2 o2]|] eqn:E2; [|discriminate].
    intros [= <- <-]. rewrite (IH _ _ E2). by eapply step_size.
Qed.

(** ** Construction and size *)

(** C5: constructing with a requested count K > 0 creates exactly K worker
    threads, each at the start of the worker loop, and size() is K; a
    requested count of 0 gives one thread and size() 1; whatever the pool
    does afterwards (any schedule of workers, submissions, wake-ups and
    the destructor), size() keeps that value. *)
Theorem ctor_size_stable (K : nat) (e : Env) (tr : list event)
    (s : world) (o : list obs) :
  run tr (boot K e) = Some (s, o) ->
  workers_ (ThreadPool_ctor K)
    = replicate (match K with O => 1 | S _ => K end) (Thread LoopTop true)
  ∧ size (ThreadPool_ctor K) = match K with O => 1%nat | S _ => K end
  ∧ size (pool s) = size (ThreadPool_ctor K).
Proof.
  intros Hrun.
  assert (Hw : workers_ (ThreadPool_ctor K)
    = replicate (match K with O => 1 | S _ => K end) (Thread LoopTop true)).
  { unfold ThreadPool_ctor. cbn [workers_]. rewrite spawn_shape.
    destruct K; reflexivity. }
  split; [exact Hw|]. split.
  - unfold size. rewrite Hw. apply length_replicate.
  - apply (run_size _ _ _ _ Hrun).
Qed.

Lemma ctor_size_stable_witness :
  size (ThreadPool_ctor 2) = 2%nat
  ∧ (exists s o, run destructor_scenario (boot 2 0) = Some (s, o)
                 ∧ size (pool s) = 2%nat).
Proof.
  split; [reflexivity|].
  destruct (run destructor_scenario (boot 2 0)) as [[s o]|] eqn:E;
    [|vm_compute in E; discriminate].
  exists s, o. split; [reflexivity|].
  destruct (ctor_size_stable 2 0 destructor_scenario s o E) as (_ & H2 & H3).
  rewrite H3. exact H2.
Defined.

(** ** Submission *)

(** C4: enqueue throws exactly when [stop_] is set at the time of the
    test under the lock; when it throws nothing is enqueued and the whole
    state is as before; otherwise the task is appended at the back of the
    queue, whose length grows by one, and a valid future is returned. *)
Theorem enqueue_rejects_iff_stopping (f : callable) (w : option nat) (s : world) :
  ((exists err, (enqueue f w s).2 = inl err) <-> stop_ (pool s) = true)
  ∧ (if stop_ (pool s)
     then enqueue f w s = (s, inl (runtime_error "ThreadPool is stopping"))
     else (enqueue f w s).2 = inr (Future (Some (length (channels s))))
          ∧ tasks_ (pool (enqueue f w s).1)
            = tasks_ (pool s) ++ [Task (length (channels s)) f]
          ∧ length (tasks_ (pool (enqueue f w s).1))
            = S (length (tasks_ (pool s)))).
Proof.
  assert (Hq : forall p, tasks_ (notify_one w p) = tasks_ p).
  { intros p. unfold notify_one. destruct w as [i|]; [|done].
    destruct (pc_of i p) as [[]|]; try done. apply tasks_set_pc. }
  unfold enqueue. destruct (stop_ (pool s)) eqn:E; cbn [fst snd pool].
  - split; [|done]. split; [done|]. intros _. eauto.
  - split.
    + split; [intros [err H]; discriminate | discriminate].
    + rewrite Hq. cbn [tasks_ with_tasks]. repeat split.
      rewrite length_app. cbn. lia.
Qed.

(** ** Futures *)




(** ** The worker loop *)

(** A worker alone on the processor: [n] consecutive transitions of
    worker [i]. *)
Lemma run_solo_S (n : nat) (i : nat) (s s1 s2 : world) (o o2 : list obs) :
  run (replicate n (EvWorker i)) s = Some (s1, o) ->
  workerLoop_step i s1 = Some (s2, o2) ->
  run (replicate (S n) (EvWorker i)) s = Some (s2, o ++ o2).
Proof.
  revert s o. induction n as [|n IH]; intros s o.
  - cbn [replicate run]. intros [= <- <-] H2. cbn [step]. rewrite H2.
    by rewrite app_nil_r.
  - change (replicate (S n) (EvWorker i))
      with (EvWorker i :: replicate n (EvWorker i)).
    change (replicate (S (S n)) (EvWorker i))
      with (EvWorker i :: replicate (S n) (EvWorker i)).
    cbn [run]. destruct (step (EvWorker i) s) as [[sa oa]|]; [|discriminate].
    destruct (run (replicate n (EvWorker i)) sa) as [[sb ob]|] eqn:E;
      [|discriminate].
    intros [= <- <-] H2. rewrite (IH _ _ E H2). by rewrite app_assoc.
Qed.

Lemma run_solo_silent (n : nat) (i : nat) (s s1 s2 : world) :
  run (replicate n (EvWorker i)) s = Some (s1, []) ->
  workerLoop_step i s1 = Some (s2, []) ->
  run (replicate (S n) (EvWorker i)) s = Some (s2, []).
Proof. apply run_solo_S. Qed.

(** Who owns the lock along [idle_path]. *)
Lemma idle_wake_path (s : world) (i n : nat) :
  pc_of i (pool s) = Some Notified ->
  mutex_ (pool s) = None ->
  tasks_ (pool s) = [] ->
  stop_ (pool s) = false ->
  (n <= 7)%nat ->
  exists s',
    run (replicate n (EvWorker i)) s = Some (s', [])
    ∧ pc_of i (pool s') = idle_path !! n
    ∧ mutex_ (pool s')
      = (if bool_decide (n ∈ [1; 2; 3; 6]%nat) then Some i else None)
    ∧ tasks_ (pool s') = []
    ∧ stop_ (pool s') = false
    ∧ env s' = env s
    ∧ channels s' = channels s.
Proof.
  intros Hpc Hm Hq Hs. induction n as [|n IH]; intros Hn.
  - exists s. done.
  - destruct IH as (s1 & Hr & Hp & Hm1 & Hq1 & Hs1 & He & Hc); [lia|].
    assert (Hlive : is_Some (pc_of i (pool s1))).
    { rewrite Hp. apply lookup_lt_is_Some. cbn. lia. }
    do 7 (destruct n as [|n];
      [ cbn in Hp, Hm1; eexists; split;
        [ eapply run_solo_silent; [exact Hr|]; worker_at Hp;
          rewrite ?Hm1, ?Hq1, ?Hs1; reflexivity
        | cbn [pool with_pool env channels]; autorewrite with pool;
          rewrite pc_of_set_pc by (autorewrite with pool; exact Hlive);
          done ]
      | ]).
    lia.
Qed.

(** C10: a worker that wakes up (notified or spuriously) while the queue
    is empty and [stop_] is false goes through l.34, l.37, l.41 and l.42
    with an empty local task: nothing is popped, no callable is invoked
    (the memory of the callables and every shared state are untouched and
    nothing is observed), the worker is never inside a task, and on the
    next iteration it is waiting again. *)
Theorem idle_wake_invokes_nothing (s : world) (i n : nat) :
  pc_of i (pool s) = Some Notified ->
  mutex_ (pool s) = None ->
  tasks_ (pool s) = [] ->
  stop_ (pool s) = false ->
  (n <= 7)%nat ->
  exists s',
    run (replicate n (EvWorker i)) s = Some (s', [])
    ∧ pc_of i (pool s') = idle_path !! n
    ∧ tasks_ (pool s') = []
    ∧ env s' = env s
    ∧ channels s' = channels s
    ∧ stop_ (pool s') = false.
Proof.
  intros Hpc Hm Hq Hs Hn.
  destruct (idle_wake_path s i n Hpc Hm Hq Hs Hn)
    as (s' & Hr & Hp & _ & Hq' & Hs' & He & Hc).
  exists s'. done.
Qed.

Lemma idle_wake_invokes_nothing_witness :
  exists s',
    run (replicate 7 (EvWorker 0)) woken_idle = Some (s', [])
    ∧ pc_of 0 (pool s') = Some Waiting
    ∧ tasks_ (pool s') = []
    ∧ env s' = 0
    ∧ channels s' = []
    ∧ stop_ (pool s') = false.
Proof.
  apply (idle_wake_invokes_nothing woken_idle 0 7); first [reflexivity | lia].
Defined.

(** The woken idle worker is a state the pool reaches: the worker went to
    sleep on the empty queue and woke without a notification. *)
Example woken_idle_reachable :
  run [EvWorker 0; EvWorker 0; EvSpurious 0] (boot 1 0) = Some (woken_idle, []).
Proof. reflexivity. Qed.

(** ** Destruction *)

(** No statement of the destructor is ever blocked, none touches the
    memory of the callables or a shared state, none moves a worker that is
    inside a task, and none takes the lock. *)
Lemma dtor_step_never_waits (s : world) :
  dtor s ≠ Destroyed ->
  exists s', dtor_step s = Some (s', [])
    ∧ env s' = env s
    ∧ channels s' = channels s
    ∧ mutex_ (pool s') = mutex_ (pool s)
    ∧ tasks_ (pool s') = tasks_ (pool s)
    ∧ forall i t, pc_of i (pool s) = Some (Running t) ->
                  pc_of i (pool s') = Some (Running t).
Proof.
  intros Hd. unfold dtor_step.
  destruct (dtor s); [| | |done]; eexists; (split; [reflexivity|]);
    cbn [env channels pool]; repeat split; try done.
  - intros i t. unfold pc_of, notify_all. cbn [workers_ with_workers].
    rewrite list_lookup_fmap.
    destruct (workers_ (pool s) !! i) as [[q j]|]; cbn; [|done].
    intros [= ->]. reflexivity.
  - intros i t. unfold pc_of, detach_all. cbn [workers_ with_workers].
    rewrite list_lookup_fmap.
    destruct (workers_ (pool s) !! i) as [[q j]|]; cbn; [|done].
    intros [= ->]. by destruct j.
Qed.

(** The three transitions of the owner are the destructor body. *)
Lemma dtor_body (s : world) :
  dtor s = Alive ->
  run [EvDestructor; EvDestructor; EvDestructor] s
  = Some (World (ThreadPool_dtor (pool s)) (env s) (channels s) Destroyed, []).
Proof. intros H. cbn [run step]. unfold dtor_step. by rewrite H. Qed.

(** C1 (the code fails the claim): in the scenario of
    test_destructor_waits_for_tasks the destructor body runs to its end
    while worker 0 is still inside the task. When it has returned, every
    worker is detached, the task has not finished (its flag is still 0 and
    its future would block), and nothing was waited for. *)
Theorem destructor_returns_while_task_runs :
  exists s,
    run destructor_scenario (boot 2 0) = Some (s, [Enqueued 0; Dequeued 0])
    ∧ dtor s = Destroyed
    ∧ stop_ (pool s) = true
    ∧ pc_of 0 (pool s) = Some (Running (Task 0 set_finished))
    ∧ joinable <$> workers_ (pool s) = [false; false]
    ∧ env s = 0
    ∧ (get (Future (Some 0%nat)) (channels s)).1 = Blocks.
Proof. eexists. split; [reflexivity|]. repeat split. Qed.

(** C2 (the code fails the claim): the worker leaves its loop at l.34-35
    as soon as it reads [stop_] as true, whatever the queue holds. In the
    shutdown scenario the worker terminates while the second task is still
    in the queue; that task's callable was never invoked and its shared
    state stays empty. *)
Theorem worker_exits_with_queued_task :
  exists s,
    run shutdown_scenario (boot 1 0)
      = Some (s, [Enqueued 0; Enqueued 1; Dequeued 0; Invoked 0])
    ∧ pc_of 0 (pool s) = Some Terminated
    ∧ stop_ (pool s) = true
    ∧ chan <$> tasks_ (pool s) = [1%nat]
    ∧ channels s = [Some (Value 0); None]
    ∧ env s = 1.
Proof. eexists. split; [reflexivity|]. repeat split. Qed.

Lemma run_app (tr1 tr2 : list event) (s : world) :
  run (tr1 ++ tr2) s
  = match run tr1 s with
    | None => None
    | Some (s1, o1) =>
        match run tr2 s1 with
        | None => None
        | Some (s2, o2) => Some (s2, o1 ++ o2)
        end
    end.
Proof.
  revert s. induction tr1 as [|e tr1 IH]; intros s; cbn [app run].
  - by destruct (run tr2 s) as [[s2 o2]|].
  - destruct (step e s) as [[sa oa]|]; [|done]. rewrite IH.
    destruct (run tr1 sa) as [[sb ob]|]; [|done].
    destruct (run tr2 sb) as [[sc oc]|]; [|done].
    by rewrite app_assoc.
Qed.

(** Once [stop_] is set and every worker has returned, nothing is ever
    dequeued or invoked again: the queue, the shared states and the memory
    of the callables stay as they are. *)
Lemma dead_pool_step (e : event) (s s1 : world) (o1 : list obs) :
  stop_ (pool s) = true ->
  Forall (fun th => pc th = Terminated) (workers_ (pool s)) ->
  step e s = Some (s1, o1) ->
  stop_ (pool s1) = true
  ∧ Forall (fun th => pc th = Terminated) (workers_ (pool s1))
  ∧ tasks_ (pool s1) = tasks_ (pool s)
  ∧ channels s1 = channels s
  ∧ env s1 = env s.
Proof.
  intros Hstop Hdead.
  assert (Hpc : forall i q, pc_of i (pool s) = Some q -> q = Terminated).
  { intros i q. unfold pc_of.
    destruct (workers_ (pool s) !! i) as [th|] eqn:E; [|done].
    intros [= <-]. by eapply (Forall_lookup_1 _ _ _ _ Hdead). }
  destruct e as [i|f w|i|]; cbn [step].
  - unfold workerLoop_step.
    destruct (pc_of i (pool s)) as [q|] eqn:E; [|done].
    by rewrite (Hpc i q E).
  - destruct (mutex_ (pool s)); [done|].
    destruct (notify_choice_ok w (pool s)); [|done].
    unfold enqueue. rewrite Hstop. by intros [= <- <-].
  - destruct (pc_of i (pool s)) as [q|] eqn:E; [|done].
    by rewrite (Hpc i q E).
  - unfold dtor_step. destruct (dtor s); [| | |done];
      intros [= <- <-]; cbn; repeat split; try done.
    + apply Forall_fmap. eapply Forall_impl; [exact Hdead|].
      intros [q j] Hq. cbn in *. by subst q.
    + apply Forall_fmap. eapply Forall_impl; [exact Hdead|].
      intros [q []] Hq; cbn in *; by subst q.
Qed.

Lemma dead_pool_run (tr : list event) (s s' : world) (o : list obs) :
  stop_ (pool s) = true ->
  Forall (fun th => pc th = Terminated) (workers_ (pool s)) ->
  run tr s = Some (s', o) ->
  tasks_ (pool s') = tasks_ (pool s)
  ∧ channels s' = channels s
  ∧ env s' = env s.
Proof.
  revert s o. induction tr as [|e tr IH]; intros s o Hstop Hdead; cbn [run].
  - by intros [= <- <-].
  - destruct (step e s) as [[s1 o1]|] eqn:E1; [|done].
    destruct (run tr s1) as [[s2 o2]|] eqn:E2; [|done].
    intros [= <- <-].
    destruct (dead_pool_step e s s1 o1 Hstop Hdead E1)
      as (Hstop1 & Hdead1 & Hq & Hc & He).
    destruct (IH s1 o2 Hstop1 Hdead1 E2) as (Hq' & Hc' & He').
    repeat split; congruence.
Qed.

(** However the shutdown scenario goes on, the task left in the queue is
    never invoked: its shared state stays empty and the counter stays
    at 1. *)
Lemma abandoned_task_never_runs (tr : list event) (s : world) (o : list obs) :
  run (shutdown_scenario ++ tr) (boot 1 0) = Some (s, o) ->
  chan <$> tasks_ (pool s) = [1%nat]
  ∧ channels s = [Some (Value 0); None]
  ∧ env s = 1.
Proof.
  rewrite run_app.
  destruct (run shutdown_scenario (boot 1 0)) as [[s1 o1]|] eqn:E1; [|done].
  destruct (run tr s1) as [[s2 o2]|] eqn:E2; [|done].
  intros [= <- <-].
  assert (H1 : stop_ (pool s1) = true
               ∧ Forall (fun th => pc th = Terminated) (workers_ (pool s1))
               ∧ chan <$> tasks_ (pool s1) = [1%nat]
               ∧ channels s1 = [Some (Value 0); None]
               ∧ env s1 = 1).
  { vm_compute in E1. injection E1 as <- <-. repeat split.
    apply Forall_cons. split; [reflexivity|apply Forall_nil_2]. }
  destruct H1 as (Hstop & Hdead & Hq & Hc & He).
  destruct (dead_pool_run tr s1 s2 o2 Hstop Hdead E2) as (Hq' & Hc' & He').
  by rewrite Hq', Hc', He'.
Qed.

(** C9 (the code fails the claim): l.13 writes [stop_] without taking
    [mutex_]. Here worker 0 owns the lock (it stands at l.31) and the
    destructor's first statement changes [stop_] all the same, with the
    lock still owned by the worker afterwards. *)
Theorem destructor_writes_stop_unlocked :
  exists s1 s2,
    run first_lock (boot 1 0) = Some (s1, [])
    ∧ pc_of 0 (pool s1) = Some CheckEmpty
    ∧ mutex_ (pool s1) = Some 0%nat
    ∧ stop_ (pool s1) = false
    ∧ step EvDestructor s1 = Some (s2, [])
    ∧ stop_ (pool s2) = true
    ∧ mutex_ (pool s2) = Some 0%nat.
Proof. do 2 eexists. split; [reflexivity|]. repeat split. Qed.

(** ** What one transition does to the tasks in flight *)

Lemma workers_held_set_pc (i : nat) (q0 : wpc) (p : ThreadPool) :
  pc_of i p = Some q0 ->
  exists R,
    workers_ p ≫= (held ∘ pc) ≡ₚ held q0 ++ R
    ∧ forall q, workers_ (set_pc i q p) ≫= (held ∘ pc) ≡ₚ held q ++ R.
Proof.
  unfold pc_of, set_pc. destruct (workers_ p !! i) as [th|] eqn:E; [|done].
  intros [= <-].
  exists ((take i (workers_ p) ≫= (held ∘ pc))
          ++ (drop (S i) (workers_ p) ≫= (held ∘ pc))).
  split.
  - rewrite <- (take_drop_middle _ _ _ E) at 1.
    rewrite bind_app, bind_cons. cbn [compose]. solve_Permutation.
  - intros q. cbn [workers_ with_workers].
    rewrite insert_take_drop by (by eapply lookup_lt_Some).
    rewrite bind_app, bind_cons. cbn [compose pc]. solve_Permutation.
Qed.

Lemma in_flight_set_pc (i : nat) (q0 q : wpc) (p : ThreadPool) :
  pc_of i p = Some q0 ->
  held q0 ++ in_flight (set_pc i q p) ≡ₚ held q ++ in_flight p.
Proof.
  intros H. destruct (workers_held_set_pc i q0 p H) as (R & H1 & H2).
  unfold in_flight. rewrite tasks_set_pc, H1, (H2 q). solve_Permutation.
Qed.

Lemma held_wake th : held (pc (wake th)) = held (pc th).
Proof. destruct th as [[] j]; reflexivity. Qed.

Lemma held_detach th : held (pc (detach th)) = held (pc th).
Proof. destruct th as [q []]; reflexivity. Qed.

Lemma in_flight_notify_all p : in_flight (notify_all p) = in_flight p.
Proof.
  unfold in_flight, notify_all. cbn [tasks_ workers_ with_workers]. f_equal.
  induction (workers_ p) as [|th ws IH]; [done|].
  cbn [map]. rewrite !bind_cons, IH. cbn [compose]. by rewrite held_wake.
Qed.

Lemma in_flight_detach_all p : in_flight (detach_all p) = in_flight p.
Proof.
  unfold in_flight, detach_all. cbn [tasks_ workers_ with_workers]. f_equal.
  induction (workers_ p) as [|th ws IH]; [done|].
  cbn [map]. rewrite !bind_cons, IH. cbn [compose]. by rewrite held_detach.
Qed.

Lemma in_flight_notify_one w p : in_flight (notify_one w p) ≡ₚ in_flight p.
Proof.
  unfold notify_one. destruct w as [i|]; [|done].
  destruct (pc_of i p) as [[]|] eqn:E; try done.
  apply (in_flight_set_pc i Waiting Notified p E).
Qed.

Lemma workerLoop_step_effect (i : nat) (s s1 : world) (o1 : list obs) :
  workerLoop_step i s = Some (s1, o1) -> effect (EvWorker i) s s1 o1.
Proof.
  unfold workerLoop_step.
  destruct (pc_of i (pool s)) as [q0|] eqn:Hpc; [|discriminate].
  pose proof (fun q p' (H : pc_of i p' = Some q0) => in_flight_set_pc i q0 q p' H)
    as Hfl.
  destruct q0 as [| | | | | |t|[t|]|t| |]; try discriminate.
  - destruct (mutex_ (pool s)); [discriminate|]. intros [= <- <-].
    apply eff_silent; try done. apply (Hfl CheckEmpty (with_mutex _ (pool s)) Hpc).
  - destruct (tasks_ (pool s)) eqn:Hq; intros [= <- <-];
      apply eff_silent; try done.
    + apply (Hfl Waiting (with_mutex _ (pool s)) Hpc).
    + apply (Hfl CheckStop (pool s) Hpc).
  - destruct (mutex_ (pool s)); [discriminate|]. intros [= <- <-].
    apply eff_silent; try done. apply (Hfl CheckStop (with_mutex _ (pool s)) Hpc).
  - destruct (stop_ (pool s)); intros [= <- <-]; apply eff_silent; try done.
    + apply (Hfl Terminated (with_mutex _ (pool s)) Hpc).
    + apply (Hfl CheckNonEmpty (pool s) Hpc).
  - destruct (tasks_ (pool s)) as [|t q] eqn:Hq; intros [= <- <-];
      apply eff_silent; try done.
    + apply (Hfl (Unlock None) (pool s) Hpc).
    + cbn [pool with_pool].
      pose proof (Hfl (Unlock (Some t)) (with_tasks q (pool s)) Hpc) as H.
      cbn [held app] in H. rewrite H.
      unfold in_flight. cbn [tasks_ workers_ with_tasks]. by rewrite Hq.
  - intros [= <- <-]. apply eff_silent; try done.
    pose proof (Hfl (Guard t) (with_mutex None (pool s)) Hpc) as H.
    destruct t; cbn [held] in H; cbn [pool with_pool].
    + by apply (inj (cons _)) in H.
    + exact H.
  - intros [= <- <-]. apply eff_silent; try done.
    pose proof (Hfl (Running t) (pool s) Hpc) as H. cbn [held] in H.
    by apply (inj (cons _)) in H.
  - intros [= <- <-]. apply eff_silent; try done.
    apply (Hfl LoopTop (pool s) Hpc).
  - pose proof (Hfl LoopTop (pool s) Hpc) as H1.
    pose proof (Hfl Crashed (pool s) Hpc) as H2. cbn [held app] in H1, H2.
    symmetry in H1, H2.
    destruct (channels s !! chan t) as [[o|]|] eqn:Hc.
    + intros [= <- <-]. apply (eff_crash _ _ _ _ t i); try done. by rewrite Hc.
    + destruct (fn t (env s)) as [e r] eqn:Hf. intros [= <- <-].
      apply (eff_invoke _ _ _ _ t); cbn [pool env channels]; rewrite ?Hf; done.
    + intros [= <- <-]. apply (eff_crash _ _ _ _ t i); try done. by rewrite Hc.
Qed.

Lemma step_effect (e : event) (s s1 : world) (o1 : list obs) :
  step e s = Some (s1, o1) -> effect e s s1 o1.
Proof.
  destruct e as [i|f w|i|]; cbn [step].
  - apply workerLoop_step_effect.
  - destruct (mutex_ (pool s)); [discriminate|].
    destruct (notify_choice_ok w (pool s)); [|discriminate].
    unfold enqueue. destruct (stop_ (pool s)).
    + intros [= <- <-]. by apply eff_silent.
    + intros [= <- <-].
      apply (eff_submit _ _ _ _ f w); try done. cbn [pool].
      rewrite in_flight_notify_one. unfold in_flight.
      cbn [tasks_ workers_ with_tasks]. solve_Permutation.
  - destruct (pc_of i (pool s)) as [[]|] eqn:E; try discriminate.
    intros [= <- <-]. apply eff_silent; try done.
    apply (in_flight_set_pc i Waiting Notified (pool s) E).
  - unfold dtor_step. destruct (dtor s); try discriminate;
      intros [= <- <-]; apply eff_silent; try done;
      cbn [pool]; by rewrite ?in_flight_notify_all, ?in_flight_detach_all.
Qed.

(** ** Counting shared states *)

Lemma count_ready_snoc_None chs : count_ready (chs ++ [None]) = count_ready chs.
Proof. induction chs as [|[o|] chs IH]; cbn; congruence. Qed.

Lemma count_ready_insert chs c o :
  chs !! c = Some None ->
  count_ready (<[c := Some o]> chs) = S (count_ready chs).
Proof.
  revert c. induction chs as [|x chs IH]; intros c; [done|].
  destruct c as [|c]; cbn.
  - by intros [= ->].
  - intros H. specialize (IH c H).
    destruct x; [exact (f_equal S IH) | exact IH].
Qed.

Lemma count_ready_le chs : (count_ready chs <= length chs)%nat.
Proof. induction chs as [|[o|] chs IH]; cbn; lia. Qed.

Lemma count_ready_all chs :
  (forall c, (c < length chs)%nat -> ready_at c chs = 1%nat) ->
  count_ready chs = length chs.
Proof.
  induction chs as [|x chs IH]; intros H; [done|].
  pose proof (H 0%nat ltac:(cbn; lia)) as H0.
  destruct x as [o|]; [|discriminate]. cbn. f_equal. apply IH.
  intros c Hc. apply (H (S c)). cbn. lia.
Qed.

Lemma ready_at_snoc_None c chs : ready_at c (chs ++ [None]) = ready_at c chs.
Proof.
  unfold ready_at. destruct (decide (c < length chs)%nat) as [Hlt|Hge].
  - by rewrite lookup_app_l.
  - rewrite (lookup_ge_None_2 chs c) by lia.
    destruct (decide (c = length chs)) as [->|Hne].
    + by rewrite list_lookup_middle.
    + rewrite lookup_ge_None_2; [done|]. rewrite length_app. cbn. lia.
Qed.

Lemma invocations_app c o o1 :
  invocations c (o ++ o1) = (invocations c o + invocations c o1)%nat.
Proof. unfold invocations, inv_ids. by rewrite omap_app, count_occ_app. Qed.

(** ** One transition and the queue *)

(** A transition appends what it enqueues at the back of the queue and
    takes what it dequeues from the front. *)
Lemma step_fifo (e : event) (s s1 : world) (o1 : list obs) :
  step e s = Some (s1, o1) ->
  (chan <$> tasks_ (pool s)) ++ enq_ids o1
  = deq_ids o1 ++ (chan <$> tasks_ (pool s1)).
Proof.
  assert (Hq : forall w p, tasks_ (notify_one w p) = tasks_ p).
  { intros w p. unfold notify_one. destruct w as [i|]; [|done].
    destruct (pc_of i p) as [[]|]; try done. apply tasks_set_pc. }
  destruct e as [i|f w|i|]; cbn [step].
  - unfold workerLoop_step.
    destruct (pc_of i (pool s)) as [[| | | | | |t|[t|]|t| |]|]; try discriminate;
      repeat match goal with
        | |- context [match ?x with _ => _ end] => destruct x eqn:?
        end;
      intros [= <- <-]; cbn [pool with_pool]; autorewrite with pool;
      cbn [tasks_ with_tasks with_mutex enq_ids deq_ids omap list_omap app];
      rewrite ?app_nil_r;
      repeat match goal with
        | H : tasks_ _ = _ |- _ => rewrite H; clear H
        end;
      done.
  - destruct (mutex_ (pool s)); [discriminate|].
    destruct (notify_choice_ok w (pool s)); [|discriminate].
    unfold enqueue. destruct (stop_ (pool s)).
    + intros [= <- <-]. cbn. by rewrite app_nil_r.
    + intros [= <- <-]. cbn [pool state]. rewrite Hq.
      cbn [tasks_ with_tasks]. by rewrite fmap_app.
  - destruct (pc_of i (pool s)) as [[]|]; try discriminate.
    intros [= <- <-]. cbn [pool with_pool]. autorewrite with pool.
    cbn. by rewrite app_nil_r.
  - unfold dtor_step. destruct (dtor s); try discriminate;
      intros [= <- <-]; cbn; by rewrite app_nil_r.
Qed.

(** ** The invariant of the pool *)

Lemma invocations_silent c o1 : inv_ids o1 = [] -> invocations c o1 = 0%nat.
Proof. unfold invocations. by intros ->. Qed.

Lemma step_coherent (e : event) (s s1 : world) (o o1 : list obs) :
  coherent s o -> step e s = Some (s1, o1) -> coherent s1 (o ++ o1).
Proof.
  intros [Hnd Hfr Henq Hfifo Honce Htot] Hstep.
  pose proof (step_fifo e s s1 o1 Hstep) as Hq.
  assert (Hfifo' : enq_ids (o ++ o1)
                   = deq_ids (o ++ o1) ++ (chan <$> tasks_ (pool s1))).
  { unfold enq_ids, deq_ids in *. rewrite !omap_app, Hfifo.
    rewrite <- !app_assoc. f_equal. exact Hq. }
  destruct (step_effect e s s1 o1 Hstep)
    as [f w _ Hp Hc He ->|t Hp Hc0 Hc He ->|t i Hp _ _ Hc He ->|Hp Hc He He1 He2].
  - (* a submission *)
    assert (Hlt : forall t, t ∈ in_flight (pool s) ->
                            (chan t < length (channels s))%nat).
    { intros t Ht. rewrite Forall_forall in Hfr.
      eapply lookup_lt_Some, Hfr, Ht. }
    split; try exact Hfifo'.
    + rewrite Hp, fmap_app. apply NoDup_app. split; [exact Hnd|]. split.
      * intros x Hx Hx'. apply list_elem_of_fmap in Hx as (t & -> & Ht).
        apply Hlt in Ht. cbn in Hx'. apply list_elem_of_singleton in Hx'. lia.
      * apply NoDup_singleton.
    + rewrite Hp, Hc. apply Forall_app. split.
      * rewrite Forall_forall in Hfr |- *. intros t Ht.
        rewrite lookup_app_l by (by apply Hlt). by apply Hfr.
      * apply Forall_singleton. cbn. by rewrite list_lookup_middle.
    + unfold enq_ids in *. rewrite omap_app, Henq, Hc, length_app. cbn.
      rewrite Nat.add_1_r, seq_S. reflexivity.
    + intros c. rewrite invocations_app, Honce, Hc, ready_at_snoc_None.
      rewrite invocations_silent by done. lia.
    + unfold inv_ids in *. rewrite omap_app, length_app, Htot, Hc.
      rewrite count_ready_snoc_None. cbn. lia.
  - (* the callable of [t] is invoked *)
    rewrite Hp in Hnd, Hfr. rewrite fmap_cons in Hnd.
    apply NoDup_cons in Hnd as [Hnotin Hnd].
    apply Forall_cons in Hfr as [_ Hfr].
    split; try exact Hfifo'; try exact Hnd.
    + rewrite Forall_forall in Hfr |- *. intros t' Ht'. rewrite Hc.
      rewrite list_lookup_insert_ne; [by apply Hfr|].
      intros Heq. apply Hnotin. rewrite Heq.
      apply list_elem_of_fmap. eauto.
    + unfold enq_ids in *. rewrite omap_app, Henq, Hc, length_insert. cbn.
      by rewrite app_nil_r.
    + intros c. rewrite invocations_app, Honce, Hc. unfold ready_at.
      destruct (decide (c = chan t)) as [->|Hne].
      * rewrite Hc0, list_lookup_insert_eq by (by eapply lookup_lt_Some).
        unfold invocations. cbn. by destruct (Nat.eq_dec (chan t) (chan t)).
      * rewrite list_lookup_insert_ne by done.
        unfold invocations. cbn. destruct (Nat.eq_dec (chan t) c); [done|lia].
    + unfold inv_ids in *. rewrite omap_app, length_app, Htot, Hc.
      rewrite (count_ready_insert _ _ _ Hc0). cbn. lia.
  - (* a second invocation of a packaged task *)
    rewrite Hp in Hnd, Hfr. rewrite fmap_cons in Hnd.
    apply NoDup_cons in Hnd as [_ Hnd].
    apply Forall_cons in Hfr as [_ Hfr].
    rewrite app_nil_r in *. split; rewrite ?Hc; done.
  - (* nothing submitted, nothing invoked *)
    split; try exact Hfifo'.
    + by rewrite Hp.
    + by rewrite Hp, Hc.
    + unfold enq_ids in *. rewrite omap_app, He1, app_nil_r, Hc. exact Henq.
    + intros c. rewrite invocations_app, Honce, Hc.
      rewrite invocations_silent by done. lia.
    + unfold inv_ids in *. rewrite omap_app, He2, app_nil_r, Hc. exact Htot.
Qed.

Lemma boot_in_flight (K : nat) : in_flight (ThreadPool_ctor K) = [].
Proof.
  unfold in_flight, ThreadPool_ctor. cbn [tasks_ workers_ app].
  rewrite spawn_shape. cbn [app].
  induction (if Nat.eqb K 0 then 1%nat else K) as [|n IH]; [done|].
  cbn [replicate]. by rewrite bind_cons, IH.
Qed.

Lemma boot_coherent (K : nat) (e0 : Env) : coherent (boot K e0) [].
Proof.
  split; cbn [boot pool channels]; rewrite ?boot_in_flight; try done.
  apply NoDup_nil_2.
Qed.

Lemma run_coherent (tr : list event) (s s' : world) (o o' : list obs) :
  coherent s o -> run tr s = Some (s', o') -> coherent s' (o ++ o').
Proof.
  revert s o o'. induction tr as [|e tr IH]; intros s o o' Hco; cbn [run].
  - intros [= <- <-]. by rewrite app_nil_r.
  - destruct (step e s) as [[s1 o1]|] eqn:E1; [|discriminate].
    destruct (run tr s1) as [[s2 o2]|] eqn:E2; [|discriminate].
    intros [= <- <-]. rewrite app_assoc.
    eapply IH; [|exact E2]. by eapply step_coherent.
Qed.

Lemma reachable_coherent (K : nat) (e0 : Env) (tr : list event)
    (s : world) (o : list obs) :
  run tr (boot K e0) = Some (s, o) -> coherent s o.
Proof. intros H. apply (run_coherent tr _ _ [] o (boot_coherent K e0) H). Qed.

(** ** Order of the queue *)

(** C6: the queue is first-in first-out over the whole pool. In every
    reachable state the sequence of dequeued tasks, followed by what the
    queue still holds, is the sequence of enqueued tasks; tasks are
    distinct; so when A was enqueued before B and B has been dequeued,
    A was dequeued before B, each at the position it was enqueued at. *)
Theorem dequeue_order_is_enqueue_order (K : nat) (e0 : Env) (tr : list event)
    (s : world) (o : list obs) :
  run tr (boot K e0) = Some (s, o) ->
  enq_ids o = deq_ids o ++ (chan <$> tasks_ (pool s))
  ∧ NoDup (enq_ids o)
  ∧ forall (a b i j : nat),
      enq_ids o !! i = Some a -> enq_ids o !! j = Some b -> (i < j)%nat ->
      b ∈ deq_ids o ->
      deq_ids o !! i = Some a ∧ deq_ids o !! j = Some b.
Proof.
  intros Hrun. destruct (reachable_coherent K e0 tr s o Hrun)
    as [_ _ Henq Hfifo _ _].
  assert (Hnd : NoDup (enq_ids o)) by (rewrite Henq; apply NoDup_seq).
  split; [exact Hfifo|]. split; [exact Hnd|].
  intros a b i j Hi Hj Hij Hb.
  apply list_elem_of_lookup in Hb as [j' Hj'].
  assert (Hj'' : enq_ids o !! j' = Some b).
  { rewrite Hfifo. by apply lookup_app_l_Some. }
  assert (j = j') as <- by (eapply NoDup_lookup; eauto).
  split; [|exact Hj'].
  rewrite Hfifo, lookup_app_l in Hi; [exact Hi|].
  apply lookup_lt_Some in Hj'. lia.
Qed.

Lemma dequeue_order_is_enqueue_order_witness :
  exists s,
    run shutdown_scenario (boot 1 0)
      = Some (s, [Enqueued 0; Enqueued 1; Dequeued 0; Invoked 0])
    ∧ [0; 1]%nat = [0%nat] ++ (chan <$> tasks_ (pool s)).
Proof.
  destruct (run shutdown_scenario (boot 1 0)) as [[s o]|] eqn:E;
    [|vm_compute in E; discriminate].
  pose proof (dequeue_order_is_enqueue_order 1 0 shutdown_scenario s o E)
    as (H & _ & _).
  assert (Ho : o = [Enqueued 0; Enqueued 1; Dequeued 0; Invoked 0]).
  { vm_compute in E. by injection E as _ <-. }
  subst o. exists s. split; [reflexivity|]. exact H.
Defined.

(** ** Every task runs once *)

Lemma step_counting (e0 : Env) (e : event) (s s1 : world) (o o1 : list obs) :
  counts e -> counting e0 s o -> step e s = Some (s1, o1) ->
  counting e0 s1 (o ++ o1).
Proof.
  intros Hf [Hin Henv] Hstep. unfold counting, inv_ids in *.
  rewrite omap_app, length_app.
  destruct (step_effect e s s1 o1 Hstep)
    as [f w -> Hp Hc He ->|t Hp Hc0 Hc He ->|t i Hp _ _ Hc He ->|Hp Hc He He1 He2].
  - split; [|cbn; lia]. rewrite Hp. apply Forall_app. split; [done|].
    by apply Forall_singleton.
  - rewrite Hp in Hin. apply Forall_cons in Hin as [Ht Hin].
    split; [done|]. rewrite He, (Ht (env s)), Henv. cbn. lia.
  - rewrite Hp in Hin. apply Forall_cons in Hin as [_ Hin].
    split; [done|]. cbn. lia.
  - split; [by rewrite Hp|]. unfold inv_ids in He2. rewrite He2. cbn. lia.
Qed.

Lemma run_counting (e0 : Env) (tr : list event) (s s' : world)
    (o o' : list obs) :
  submits_increments tr -> counting e0 s o -> run tr s = Some (s', o') ->
  counting e0 s' (o ++ o').
Proof.
  unfold submits_increments.
  revert s o o'. induction tr as [|e tr IH]; intros s o o' Htr Hco; cbn [run].
  - intros [= <- <-]. by rewrite app_nil_r.
  - apply Forall_cons in Htr as [He Htr].
    destruct (step e s) as [[s1 o1]|] eqn:E1; [|discriminate].
    destruct (run tr s1) as [[s2 o2]|] eqn:E2; [|discriminate].
    intros [= <- <-]. rewrite app_assoc.
    eapply IH; [exact Htr| |exact E2]. by eapply step_counting.
Qed.



(** ** Failing tasks *)

Lemma running_in_flight (i : nat) (t : task) (p : ThreadPool) :
  pc_of i p = Some (Running t) -> t ∈ in_flight p.
Proof.
  intros H. destruct (workers_held_set_pc i _ p H) as (R & HR & _).
  unfold in_flight. rewrite HR. cbn [held].
  apply elem_of_app. right. apply elem_of_cons. by left.
Qed.

(** In a reachable state the task a worker is inside of was not invoked
    before: its shared state is empty. *)
Lemma running_is_fresh (K : nat) (e0 : Env) (tr : list event) (s : world)
    (o : list obs) (i : nat) (t : task) :
  run tr (boot K e0) = Some (s, o) ->
  pc_of i (pool s) = Some (Running t) ->
  channels s !! chan t = Some None.
Proof.
  intros Hrun Hpc. destruct (reachable_coherent K e0 tr s o Hrun)
    as [_ Hfr _ _ _ _].
  rewrite Forall_forall in Hfr. by eapply Hfr, running_in_flight.
Qed.

Lemma live_set_pc (i j : nat) (q : wpc) (p : ThreadPool) :
  is_Some (pc_of i p) -> is_Some (pc_of i (set_pc j q p)).
Proof.
  intros H. destruct (decide (j = i)) as [->|Hne].
  - rewrite pc_of_set_pc; eauto.
  - by rewrite pc_of_set_pc_ne.
Qed.

(** Worker [i] exists, whatever was updated since hypothesis [H]. *)
Ltac live H :=
  repeat first [ exact H | apply live_set_pc
               | rewrite pc_of_with_mutex | rewrite pc_of_with_tasks ].

(** From the top of the loop, with the lock free, [stop_] false and a
    task at the front of the queue, a worker dequeues that task and
    enters it. *)
Lemma worker_takes_next (s : world) (i : nat) (t : task) (q : list task) :
  pc_of i (pool s) = Some LoopTop ->
  mutex_ (pool s) = None ->
  stop_ (pool s) = false ->
  tasks_ (pool s) = t :: q ->
  exists s',
    run (replicate 6 (EvWorker i)) s = Some (s', [Dequeued (chan t)])
    ∧ pc_of i (pool s') = Some (Running t)
    ∧ mutex_ (pool s') = None
    ∧ stop_ (pool s') = false
    ∧ tasks_ (pool s') = q
    ∧ env s' = env s
    ∧ channels s' = channels s.
Proof.
  intros Hp0 Hm Hs Hq.
  assert (Hlive : is_Some (pc_of i (pool s))) by (rewrite Hp0; eauto).
  eexists. split.
  - change 6%nat with (S (S (S (S (S (S 0)))))).
    cbn [replicate run]. worker_at Hp0. rewrite Hm.
    do 5 (unfold step, workerLoop_step; cbn [pool with_pool env channels dtor];
          rewrite pc_of_set_pc by live Hlive;
          autorewrite with pool;
          cbn [tasks_ mutex_ stop_ with_mutex with_tasks with_stop];
          rewrite ?Hq, ?Hs).
    cbn [app]. reflexivity.
  - cbn [pool with_pool env channels]. autorewrite with pool.
    rewrite pc_of_set_pc by live Hlive.
    repeat (autorewrite with pool;
            cbn [tasks_ mutex_ stop_ with_tasks with_mutex with_stop]).
    done.
Qed.

(** C8: when the callable of the task a worker is inside of throws, the
    exception is captured into the task's shared state and get on the
    task's handle rethrows it; the worker does not terminate, it is back
    at the top of its loop; the queue, the other workers, the lock and the
    stop flag are as before; and a task queued behind the failing one is
    dequeued and entered by the worker on its next iteration (the lock
    being free and the pool not stopping). *)
Theorem task_failure_is_captured (K : nat) (e0 : Env) (tr : list event)
    (s : world) (o : list obs) (i : nat) (t : task) (e' : Env) (what : string) :
  run tr (boot K e0) = Some (s, o) ->
  pc_of i (pool s) = Some (Running t) ->
  fn t (env s) = (e', Throw what) ->
  exists s1,
    step (EvWorker i) s = Some (s1, [Invoked (chan t)])
    ∧ channels s1 !! chan t = Some (Some (Exception what))
    ∧ (get (Future (Some (chan t))) (channels s1)).1 = Rethrows what
    ∧ pc_of i (pool s1) = Some LoopTop
    ∧ tasks_ (pool s1) = tasks_ (pool s)
    ∧ mutex_ (pool s1) = mutex_ (pool s)
    ∧ stop_ (pool s1) = stop_ (pool s)
    ∧ (forall j, j ≠ i -> pc_of j (pool s1) = pc_of j (pool s))
    ∧ (forall t2 q,
         tasks_ (pool s) = t2 :: q ->
         mutex_ (pool s) = None ->
         stop_ (pool s) = false ->
         exists s2,
           run (replicate 6 (EvWorker i)) s1 = Some (s2, [Dequeued (chan t2)])
           ∧ pc_of i (pool s2) = Some (Running t2)).
Proof.
  intros Hrun Hpc Hfn.
  pose proof (running_is_fresh K e0 tr s o i t Hrun Hpc) as Hfresh.
  assert (Hlive : is_Some (pc_of i (pool s))) by (rewrite Hpc; eauto).
  eexists. split.
  { cbn [step]. unfold workerLoop_step. rewrite Hpc, Hfresh, Hfn. reflexivity. }
  cbn [pool env channels capture]. autorewrite with pool.
  rewrite pc_of_set_pc by exact Hlive.
  assert (Hch : <[chan t := Some (Exception what)]> (channels s) !! chan t
                = Some (Some (Exception what))).
  { apply list_lookup_insert_eq. by eapply lookup_lt_Some. }
  split; [exact Hch|]. split.
  { unfold get. cbn [state]. by rewrite Hch. }
  repeat (split; [done|]). split.
  { intros j Hj. by apply pc_of_set_pc_ne. }
  intros t2 q Hq Hm Hs.
  edestruct (worker_takes_next
               (World (set_pc i LoopTop (pool s)) e'
                      (<[chan t := Some (Exception what)]> (channels s)) (dtor s))
               i t2 q) as (s2 & Hr & Hp2 & _); cbn [pool];
    autorewrite with pool; try done.
  - by apply pc_of_set_pc.
  - exists s2. done.
Qed.

Lemma task_failure_is_captured_witness :
  exists s s1 s2,
    run failure_scenario (boot 1 0) = Some (s, [Enqueued 0; Enqueued 1; Dequeued 0])
    ∧ step (EvWorker 0) s = Some (s1, [Invoked 0])
    ∧ (get (Future (Some 0%nat)) (channels s1)).1 = Rethrows "boom"
    ∧ pc_of 0 (pool s1) = Some LoopTop
    ∧ run (replicate 6 (EvWorker 0)) s1 = Some (s2, [Dequeued 1])
    ∧ pc_of 0 (pool s2) = Some (Running (Task 1 incr)).
Proof.
  destruct (run failure_scenario (boot 1 0)) as [[s o]|] eqn:E;
    [|vm_compute in E; discriminate].
  assert (Hs : o = [Enqueued 0; Enqueued 1; Dequeued 0]
               ∧ pc_of 0 (pool s) = Some (Running (Task 0 failing))
               ∧ env s = 0
               ∧ tasks_ (pool s) = [Task 1 incr]
               ∧ mutex_ (pool s) = None
               ∧ stop_ (pool s) = false).
  { vm_compute in E. injection E as <- <-. repeat split. }
  destruct Hs as (-> & Hpc & Henv & Hq & Hm & Hstop).
  destruct (task_failure_is_captured 1 0 failure_scenario s _ 0
              (Task 0 failing) 0 "boom" E Hpc)
    as (s1 & H1 & _ & H3 & H4 & _ & _ & _ & _ & H9).
  { cbn [fn]. by rewrite Henv. }
  destruct (H9 (Task 1 incr) [] Hq Hm Hstop) as (s2 & H10 & H11).
  exists s, s1, s2. repeat split; assumption.
Defined.

(** * Further properties of the pool *)

(** ** The lock *)

Lemma pc_of_notify_all (i : nat) (p : ThreadPool) :
  pc_of i (notify_all p)
  = (fun q => match q with Waiting => Notified | _ => q end) <$> pc_of i p.
Proof.
  unfold pc_of, notify_all. cbn [workers_ with_workers].
  rewrite list_lookup_fmap. destruct (workers_ p !! i) as [[q j]|]; [|done].
  by destruct q.
Qed.

Lemma pc_of_detach_all (i : nat) (p : ThreadPool) :
  pc_of i (detach_all p) = pc_of i p.
Proof.
  unfold pc_of, detach_all. cbn [workers_ with_workers].
  rewrite list_lookup_fmap. destruct (workers_ p !! i) as [[q []]|]; done.
Qed.

Lemma pc_of_notify_one (i : nat) (w : option nat) (p : ThreadPool) :
  pc_of i (notify_one w p) = pc_of i p
  ∨ (w = Some i ∧ pc_of i p = Some Waiting
     ∧ pc_of i (notify_one w p) = Some Notified).
Proof.
  unfold notify_one. destruct w as [j|]; [|by left].
  destruct (pc_of j p) as [q|] eqn:E; [|by left].
  destruct q; try by left.
  destruct (decide (j = i)) as [->|Hne].
  - right. rewrite pc_of_set_pc by eauto. done.
  - left. by apply pc_of_set_pc_ne.
Qed.

Lemma mutex_notify_one (w : option nat) (p : ThreadPool) :
  mutex_ (notify_one w p) = mutex_ p.
Proof.
  unfold notify_one. destruct w as [j|]; [|done].
  destruct (pc_of j p) as [[]|]; try done. apply mutex_set_pc.
Qed.

(** Moving worker [i] to [q] keeps the discipline when [q] agrees with the
    new owner of the lock and no other worker gains or loses the lock. *)
Lemma lock_discipline_update (i : nat) (q0 q : wpc) (p0 p : ThreadPool) :
  lock_discipline p0 ->
  workers_ p = workers_ p0 ->
  pc_of i p0 = Some q0 ->
  (in_lock q = true <-> mutex_ p = Some i) ->
  (forall j, j ≠ i -> (mutex_ p0 = Some j <-> mutex_ p = Some j)) ->
  lock_discipline (set_pc i q p).
Proof.
  intros Hld Hws Hpc Hq Hothers j qj Hj. rewrite mutex_set_pc.
  assert (Hsame : forall k, pc_of k p = pc_of k p0).
  { intros k. unfold pc_of. by rewrite Hws. }
  destruct (decide (j = i)) as [->|Hne].
  - rewrite pc_of_set_pc in Hj by (rewrite Hsame, Hpc; eauto).
    by injection Hj as <-.
  - rewrite pc_of_set_pc_ne, Hsame in Hj by done.
    rewrite (Hld j qj Hj). by apply Hothers.
Qed.

Lemma step_lock_discipline (e : event) (s s1 : world) (o1 : list obs) :
  lock_discipline (pool s) -> step e s = Some (s1, o1) ->
  lock_discipline (pool s1).
Proof.
  intros Hld. destruct e as [i|f w|i|]; cbn [step].
  - unfold workerLoop_step.
    destruct (pc_of i (pool s)) as [q0|] eqn:Hpc; [|done].
    pose proof (Hld i q0 Hpc) as Hown.
    assert (Hrel : in_lock q0 = true ->
                   forall j, j ≠ i -> mutex_ (pool s) = Some j <-> @None nat = Some j).
    { intros Hin j Hj. apply Hown in Hin. rewrite Hin.
      split; [|done]. intros [= ->]. done. }
    destruct q0 as [| | | | | |t|[t|]|t| |]; try done;
      repeat match goal with
        | |- context [match ?x with _ => _ end] => destruct x eqn:?
        end;
      intros [= <- <-]; cbn [pool with_pool];
      (eapply (lock_discipline_update i _ _ (pool s));
       [exact Hld | reflexivity | exact Hpc | cbn [mutex_ with_mutex with_tasks in_lock]
       | cbn [mutex_ with_mutex with_tasks]; auto; try (by apply Hrel)]);
      try done; try (by apply Hown);
      try (rewrite <- Hown; done);
      match goal with
      | H : mutex_ _ = None |- _ =>
          rewrite H; intros j Hj; split; [done | intros [= ->]; done]
      end.
  - destruct (mutex_ (pool s)) eqn:Hm; [done|].
    destruct (notify_choice_ok w (pool s)); [|done].
    unfold enqueue. destruct (stop_ (pool s)); intros [= <- <-]; [done|].
    cbn [pool]. intros j qj Hj. rewrite mutex_notify_one.
    cbn [mutex_ with_tasks]. rewrite Hm.
    destruct (pc_of_notify_one j w
                (with_tasks (tasks_ (pool s) ++ [Task (length (channels s)) f])
                            (pool s))) as [Heq|(_ & Hw & Hn)].
    + rewrite Heq in Hj. rewrite (Hld j qj Hj). by rewrite Hm.
    + rewrite Hn in Hj. injection Hj as <-. done.
  - destruct (pc_of i (pool s)) as [q0|] eqn:Hpc; [|done].
    destruct q0; try done. intros [= <- <-]. cbn [pool with_pool].
    eapply (lock_discipline_update i _ _ (pool s)); try done.
    cbn [in_lock]. rewrite <- (Hld i Waiting Hpc). done.
  - unfold dtor_step. destruct (dtor s); try done; intros [= <- <-];
      cbn [pool]; intros j qj Hj.
    + exact (Hld j qj Hj).
    + rewrite pc_of_notify_all in Hj.
      destruct (pc_of j (pool s)) as [q|] eqn:E; [|done].
      injection Hj as <-. cbn [notify_all with_workers mutex_].
      rewrite <- (Hld j q E). by destruct q.
    + rewrite pc_of_detach_all in Hj. exact (Hld j qj Hj).
Qed.

(** An invariant of the transitions holds along every schedule. *)
Lemma run_invariant (I : world -> list obs -> Prop) :
  (forall e s o s1 o1, I s o -> step e s = Some (s1, o1) -> I s1 (o ++ o1)) ->
  forall tr s o s' o', I s o -> run tr s = Some (s', o') -> I s' (o ++ o').
Proof.
  intros Hstep tr. induction tr as [|e tr IH]; intros s o s' o' HI; cbn [run].
  - intros [= <- <-]. by rewrite app_nil_r.
  - destruct (step e s) as [[s1 o1]|] eqn:E1; [|done].
    destruct (run tr s1) as [[s2 o2]|] eqn:E2; [|done].
    intros [= <- <-]. rewrite app_assoc.
    eapply IH; [|exact E2]. by eapply Hstep.
Qed.

Lemma boot_pc_of (K : nat) (e0 : Env) (i : nat) (q : wpc) :
  pc_of i (pool (boot K e0)) = Some q -> q = LoopTop.
Proof.
  unfold pc_of, boot, ThreadPool_ctor. cbn [pool workers_].
  rewrite spawn_shape. cbn [app].
  destruct (replicate _ _ !! i) as [th|] eqn:E; [|done].
  apply lookup_replicate in E as [-> _]. by intros [= <-].
Qed.

Lemma reachable_lock_discipline (K : nat) (e0 : Env) (tr : list event)
    (s : world) (o : list obs) :
  run tr (boot K e0) = Some (s, o) -> lock_discipline (pool s).
Proof.
  intros Hrun.
  apply (run_invariant (fun s _ => lock_discipline (pool s))
           (fun e s o s1 o1 H => step_lock_discipline e s s1 o1 H)
           tr (boot K e0) [] s o); [|exact Hrun].
  intros i q Hq. rewrite (boot_pc_of K e0 i q Hq). done.
Qed.

(** X1: in every state the pool reaches, a worker stands between l.30 and
    l.41 exactly when [mutex_] is owned by it; so at most one worker is
    inside the locked scope, and a worker that is inside a task does not
    own the lock: tasks run outside the lock. *)
Theorem workers_respect_the_lock (K : nat) (e0 : Env) (tr : list event)
    (s : world) (o : list obs) :
  run tr (boot K e0) = Some (s, o) ->
  (forall i q, pc_of i (pool s) = Some q ->
               (in_lock q = true <-> mutex_ (pool s) = Some i))
  ∧ (forall i j qi qj,
       pc_of i (pool s) = Some qi -> pc_of j (pool s) = Some qj ->
       in_lock qi = true -> in_lock qj = true -> i = j)
  ∧ (forall i t, pc_of i (pool s) = Some (Running t) ->
                 mutex_ (pool s) ≠ Some i).
Proof.
  intros Hrun. pose proof (reachable_lock_discipline K e0 tr s o Hrun) as Hld.
  split; [exact Hld|]. split.
  - intros i j qi qj Hi Hj Hqi Hqj.
    apply (Hld i qi Hi) in Hqi. apply (Hld j qj Hj) in Hqj. congruence.
  - intros i t Hi Hm. apply (Hld i _ Hi) in Hm. done.
Qed.

Lemma workers_respect_the_lock_witness :
  exists s,
    run first_lock (boot 1 0) = Some (s, [])
    ∧ (in_lock CheckEmpty = true <-> mutex_ (pool s) = Some 0%nat).
Proof.
  destruct (run first_lock (boot 1 0)) as [[s o]|] eqn:E;
    [|vm_compute in E; discriminate].
  destruct (workers_respect_the_lock 1 0 first_lock s o E) as (H & _ & _).
  assert (Hs : o = [] ∧ pc_of 0 (pool s) = Some CheckEmpty).
  { vm_compute in E. injection E as <- <-. split; reflexivity. }
  destruct Hs as [-> Hpc]. exists s. split; [reflexivity|].
  exact (H 0%nat CheckEmpty Hpc).
Defined.

(** ** No packaged task is invoked twice *)

Lemma set_pc_missing (i : nat) (q : wpc) (p : ThreadPool) :
  pc_of i p = None -> set_pc i q p = p.
Proof.
  unfold pc_of, set_pc. by destruct (workers_ p !! i).
Qed.

Lemma no_crash_set_pc (i : nat) (q : wpc) (p0 p : ThreadPool) :
  (forall j, pc_of j p0 ≠ Some Crashed) ->
  workers_ p = workers_ p0 ->
  q ≠ Crashed ->
  forall j, pc_of j (set_pc i q p) ≠ Some Crashed.
Proof.
  intros H0 Hws Hq j.
  assert (Hsame : forall k, pc_of k p = pc_of k p0).
  { intros k. unfold pc_of. by rewrite Hws. }
  destruct (decide (j = i)) as [->|Hne].
  - destruct (pc_of i p) as [q0|] eqn:E.
    + rewrite pc_of_set_pc by (rewrite E; eauto). by intros [= ->].
    + rewrite (set_pc_missing i q p E), Hsame. apply H0.
  - rewrite pc_of_set_pc_ne, Hsame by done. apply H0.
Qed.

Lemma step_no_crash (e : event) (s s1 : world) (o o1 : list obs) :
  coherent s o ->
  (forall j, pc_of j (pool s) ≠ Some Crashed) ->
  step e s = Some (s1, o1) ->
  forall j, pc_of j (pool s1) ≠ Some Crashed.
Proof.
  intros Hco Hnc. destruct e as [i|f w|i|]; cbn [step].
  - unfold workerLoop_step.
    destruct (pc_of i (pool s)) as [q0|] eqn:Hpc; [|done].
    assert (Hfresh : forall t, q0 = Running t ->
                               channels s !! chan t = Some None).
    { intros t ->. destruct Hco as [_ Hfr _ _ _ _].
      rewrite Forall_forall in Hfr. by eapply Hfr, running_in_flight. }
    destruct q0 as [| | | | | |t|[t|]|t| |]; try done;
      try rewrite (Hfresh _ eq_refl);
      repeat match goal with
        | |- context [match ?x with _ => _ end] => destruct x eqn:?
        end;
      intros [= <- <-]; cbn [pool with_pool];
      by apply (no_crash_set_pc i _ (pool s)).
  - destruct (mutex_ (pool s)); [done|].
    destruct (notify_choice_ok w (pool s)); [|done].
    unfold enqueue. destruct (stop_ (pool s)); intros [= <- <-]; [done|].
    cbn [pool]. intros j.
    destruct (pc_of_notify_one j w
                (with_tasks (tasks_ (pool s) ++ [Task (length (channels s)) f])
                            (pool s))) as [Heq|(_ & _ & Hn)].
    + rewrite Heq. apply Hnc.
    + by rewrite Hn.
  - destruct (pc_of i (pool s)) as [[]|]; try done. intros [= <- <-].
    cbn [pool with_pool]. by apply (no_crash_set_pc i _ (pool s)).
  - unfold dtor_step. destruct (dtor s); try done; intros [= <- <-];
      cbn [pool]; intros j.
    + apply Hnc.
    + rewrite pc_of_notify_all. specialize (Hnc j).
      destruct (pc_of j (pool s)) as [[]|]; done.
    + rewrite pc_of_detach_all. apply Hnc.
Qed.



(** ** After the stop flag is set *)

Lemma enq_ids_app (o1 o2 : list obs) :
  enq_ids (o1 ++ o2) = enq_ids o1 ++ enq_ids o2.
Proof. apply omap_app. Qed.

Lemma deq_ids_app (o1 o2 : list obs) :
  deq_ids (o1 ++ o2) = deq_ids o1 ++ deq_ids o2.
Proof. apply omap_app. Qed.

Lemma inv_ids_app (o1 o2 : list obs) :
  inv_ids (o1 ++ o2) = inv_ids o1 ++ inv_ids o2.
Proof. apply omap_app. Qed.

Lemma run_fifo (tr : list event) (s s' : world) (o : list obs) :
  run tr s = Some (s', o) ->
  (chan <$> tasks_ (pool s)) ++ enq_ids o
  = deq_ids o ++ (chan <$> tasks_ (pool s')).
Proof.
  revert s o. induction tr as [|e tr IH]; intros s o; cbn [run].
  - intros [= <- <-]. cbn. by rewrite app_nil_r.
  - destruct (step e s) as [[s1 o1]|] eqn:E1; [|done].
    destruct (run tr s1) as [[s2 o2]|] eqn:E2; [|done].
    intros [= <- <-]. rewrite enq_ids_app, deq_ids_app.
    rewrite app_assoc, (step_fifo e s s1 o1 E1), <- !app_assoc.
    f_equal. by apply IH.
Qed.

Lemma step_stopped (e : event) (s s1 : world) (o1 : list obs) :
  stop_ (pool s) = true -> step e s = Some (s1, o1) ->
  stop_ (pool s1) = true
  ∧ enq_ids o1 = []
  ∧ length (channels s1) = length (channels s).
Proof.
  intros Hstop. destruct e as [i|f w|i|]; cbn [step].
  - unfold workerLoop_step.
    destruct (pc_of i (pool s)) as [[| | | | | |t|[t|]|t| |]|]; try done;
      repeat match goal with
        | |- context [match ?x with _ => _ end] => destruct x eqn:?
        end;
      intros [= <- <-]; cbn [pool with_pool channels]; autorewrite with pool;
      cbn [stop_ with_mutex with_tasks]; rewrite ?length_insert; done.
  - destruct (mutex_ (pool s)); [done|].
    destruct (notify_choice_ok w (pool s)); [|done].
    unfold enqueue. rewrite Hstop. by intros [= <- <-].
  - destruct (pc_of i (pool s)) as [[]|]; try done. intros [= <- <-].
    cbn [pool with_pool channels]. by autorewrite with pool.
  - unfold dtor_step. destruct (dtor s); try done; by intros [= <- <-].
Qed.



(** A transition of another thread does not move worker [i], unless it
    wakes it from its wait. *)
Lemma step_other_worker (i j : nat) (s s1 : world) (o1 : list obs) :
  i ≠ j -> workerLoop_step j s = Some (s1, o1) ->
  pc_of i (pool s1) = pc_of i (pool s).
Proof.
  intros Hne. unfold workerLoop_step.
  destruct (pc_of j (pool s)) as [[| | | | | |t|[t|]|t| |]|]; try done;
    repeat match goal with
      | |- context [match ?x with _ => _ end] => destruct x eqn:?
      end;
    intros [= <- <-]; cbn [pool with_pool];
    by rewrite pc_of_set_pc_ne.
Qed.

Lemma event_is_destructor_dec (e : event) :
  {e = EvDestructor} + {e ≠ EvDestructor}.
Proof. destruct e; first [by left | by right]. Qed.

(** Only the owner advances the destructor. *)
Lemma step_dtor_frame (e : event) (s s1 : world) (o1 : list obs) :
  e ≠ EvDestructor -> step e s = Some (s1, o1) -> dtor s1 = dtor s.
Proof.
  intros Hne. destruct e as [i|f w|i|]; [| | |done]; cbn [step].
  - unfold workerLoop_step.
    destruct (pc_of i (pool s)) as [[| | | | | |t|[t|]|t| |]|]; try done;
      repeat match goal with
        | |- context [match ?x with _ => _ end] => destruct x eqn:?
        end;
      by intros [= <- <-].
  - destruct (mutex_ (pool s)); [done|].
    destruct (notify_choice_ok w (pool s)); [|done].
    unfold enqueue. destruct (stop_ (pool s)); by intros [= <- <-].
  - destruct (pc_of i (pool s)) as [[]|]; try done. by intros [= <- <-].
Qed.



(** ** Futures and results *)



(** X6: when a worker finishes the task it is inside of, the callable's
    effect on the captured memory is applied, what it returned or threw is
    stored in the task's own shared state and get on the task's handle
    delivers exactly that, the shared states of all other tasks are
    untouched, and the worker is back at the top of its loop. *)
Theorem task_outcome_is_delivered (K : nat) (e0 : Env) (tr : list event)
    (s : world) (o : list obs) (i : nat) (t : task) (e' : Env) (r : result) :
  run tr (boot K e0) = Some (s, o) ->
  pc_of i (pool s) = Some (Running t) ->
  fn t (env s) = (e', r) ->
  exists s1,
    step (EvWorker i) s = Some (s1, [Invoked (chan t)])
    ∧ env s1 = e'
    ∧ get (Future (Some (chan t))) (channels s1)
      = (deliver (capture r), Future None)
    ∧ (forall c, c ≠ chan t -> channels s1 !! c = channels s !! c)
    ∧ length (channels s1) = length (channels s)
    ∧ pc_of i (pool s1) = Some LoopTop.
Proof.
  intros Hrun Hpc Hfn.
  assert (Hfresh : channels s !! chan t = Some None).
  { destruct (reachable_coherent K e0 tr s o Hrun) as [_ Hfr _ _ _ _].
    rewrite Forall_forall in Hfr. by eapply Hfr, running_in_flight. }
  eexists. split.
  { cbn [step]. unfold workerLoop_step. rewrite Hpc, Hfresh, Hfn. reflexivity. }
  cbn [pool env channels]. split; [done|]. split.
  { unfold get. cbn [state].
    rewrite list_lookup_insert_eq by (by eapply lookup_lt_Some). done. }
  split.
  { intros c Hc. by rewrite list_lookup_insert_ne. }
  split; [by rewrite length_insert|].
  apply pc_of_set_pc. rewrite Hpc. eauto.
Qed.

Lemma task_outcome_is_delivered_witness :
  exists s s1,
    run (start_first incr) (boot 1 5) = Some (s, [Enqueued 0; Dequeued 0])
    ∧ step (EvWorker 0) s = Some (s1, [Invoked 0])
    ∧ env s1 = 6
    ∧ get (Future (Some 0%nat)) (channels s1) = (Returns 0, Future None).
Proof.
  destruct (run (start_first incr) (boot 1 5)) as [[s o]|] eqn:E;
    [|vm_compute in E; discriminate].
  assert (Hs : o = [Enqueued 0; Dequeued 0]
               ∧ pc_of 0 (pool s) = Some (Running (Task 0 incr))
               ∧ env s = 5).
  { vm_compute in E. injection E as <- <-. repeat split. }
  destruct Hs as (-> & Hpc & Henv).
  destruct (task_outcome_is_delivered 1 5 (start_first incr) s _ 0
              (Task 0 incr) 6 (Return 0) E Hpc)
    as (s1 & H1 & H2 & H3 & _).
  { cbn [fn]. by rewrite Henv. }
  exists s, s1. repeat split; assumption.
Defined.

(** ** More on destruction *)




(** ** From submission to result *)

(** The last transition of a task whose shared state is still empty. *)
Lemma invoke_fresh (s : world) (i : nat) (t : task) :
  pc_of i (pool s) = Some (Running t) ->
  channels s !! chan t = Some None ->
  workerLoop_step i s
  = Some (World (set_pc i LoopTop (pool s)) (fn t (env s)).1
                (<[chan t := Some (capture (fn t (env s)).2)]> (channels s))
                (dtor s),
          [Invoked (chan t)]).
Proof.
  intros Hpc Hc. unfold workerLoop_step. rewrite Hpc, Hc.
  by destruct (fn t (env s)).
Qed.

(** A woken worker that finds the lock free, [stop_] false and a task at
    the front of the queue dequeues that task and enters it. *)
Lemma woken_worker_takes_next (s : world) (i : nat) (t : task) (q : list task) :
  pc_of i (pool s) = Some Notified ->
  mutex_ (pool s) = None ->
  stop_ (pool s) = false ->
  tasks_ (pool s) = t :: q ->
  exists s',
    run (replicate 5 (EvWorker i)) s = Some (s', [Dequeued (chan t)])
    ∧ pc_of i (pool s') = Some (Running t)
    ∧ mutex_ (pool s') = None
    ∧ stop_ (pool s') = false
    ∧ tasks_ (pool s') = q
    ∧ env s' = env s
    ∧ channels s' = channels s
    ∧ dtor s' = dtor s.
Proof.
  intros Hp0 Hm Hs Hq.
  assert (Hlive : is_Some (pc_of i (pool s))) by (rewrite Hp0; eauto).
  eexists. split.
  - change 5%nat with (S (S (S (S (S 0))))).
    cbn [replicate run]. worker_at Hp0. rewrite Hm.
    do 4 (unfold step, workerLoop_step; cbn [pool with_pool env channels dtor];
          rewrite pc_of_set_pc by live Hlive;
          autorewrite with pool;
          cbn [tasks_ mutex_ stop_ with_mutex with_tasks with_stop];
          rewrite ?Hq, ?Hs).
    cbn [app]. reflexivity.
  - cbn [pool with_pool env channels dtor]. autorewrite with pool.
    rewrite pc_of_set_pc by live Hlive.
    repeat (autorewrite with pool;
            cbn [tasks_ mutex_ stop_ with_tasks with_mutex with_stop]).
    done.
Qed.

(** X9: from submission to result. When worker [i] is idle in its wait,
    the queue is empty, the lock is free and the pool is not stopping, a
    call of enqueue that notifies [i], followed by six transitions of
    [i], enqueues the task, dequeues it and invokes its callable once, on
    the memory as it was; get on the returned handle then delivers what
    the callable returned or threw, the queue is empty again and the
    worker is back at the top of its loop with the lock free. *)
Theorem submit_to_idle_worker_round_trip (s : world) (i : nat) (f : callable) :
  pc_of i (pool s) = Some Waiting ->
  mutex_ (pool s) = None ->
  stop_ (pool s) = false ->
  tasks_ (pool s) = [] ->
  exists s',
    run (EvEnqueue f (Some i) :: replicate 6 (EvWorker i)) s
      = Some (s', [Enqueued (length (channels s));
                   Dequeued (length (channels s));
                   Invoked (length (channels s))])
    ∧ (enqueue f (Some i) s).2 = inr (Future (Some (length (channels s))))
    ∧ env s' = (f (env s)).1
    ∧ get (Future (Some (length (channels s)))) (channels s')
      = (deliver (capture (f (env s)).2), Future None)
    ∧ pc_of i (pool s') = Some LoopTop
    ∧ tasks_ (pool s') = []
    ∧ mutex_ (pool s') = None.
Proof.
  intros Hpc Hm Hs Hq.
  set (n := length (channels s)).
  set (s1 := World (set_pc i Notified
                      (with_tasks (tasks_ (pool s) ++ [Task n f]) (pool s)))
                   (env s) (channels s ++ [None]) (dtor s)).
  assert (Henq : enqueue f (Some i) s = (s1, inr (Future (Some n)))).
  { unfold enqueue. rewrite Hs. unfold notify_one.
    by rewrite pc_of_with_tasks, Hpc. }
  assert (H1 : step (EvEnqueue f (Some i)) s = Some (s1, [Enqueued n])).
  { cbn [step]. rewrite Hm. unfold notify_choice_ok. by rewrite Hpc, Henq. }
  assert (Hlive : is_Some (pc_of i (pool s))) by (rewrite Hpc; eauto).
  destruct (woken_worker_takes_next s1 i (Task n f) [])
    as (s2 & Hr2 & Hp2 & Hm2 & Hs2 & Hq2 & He2 & Hc2 & _).
  { cbn [s1 pool]. apply pc_of_set_pc. live Hlive. }
  { cbn [s1 pool]. by autorewrite with pool. }
  { cbn [s1 pool]. by autorewrite with pool. }
  { cbn [s1 pool]. autorewrite with pool. cbn [tasks_ with_tasks].
    by rewrite Hq. }
  assert (Hfresh : channels s2 !! chan (Task n f) = Some None).
  { rewrite Hc2. cbn [s1 channels chan]. by apply list_lookup_middle. }
  pose proof (run_solo_S 5 i s1 s2 _ _ _ Hr2 (invoke_fresh s2 i _ Hp2 Hfresh))
    as Hr3.
  eexists. split.
  { cbn [run]. rewrite H1. rewrite Hr3. reflexivity. }
  cbn [pool env channels fn chan]. rewrite Henq, He2, Hc2. cbn [snd s1 env channels].
  split; [done|]. split; [done|]. split.
  { unfold get. cbn [state].
    rewrite list_lookup_insert_eq; [done|]. rewrite length_app. cbn. lia. }
  autorewrite with pool. rewrite Hq2, Hm2. split; [|done].
  apply pc_of_set_pc. rewrite Hp2. eauto.
Qed.

Lemma submit_to_idle_worker_round_trip_witness :
  exists s s',
    run [EvWorker 0; EvWorker 0] (boot 1 41) = Some (s, [])
    ∧ run (EvEnqueue incr (Some 0%nat) :: replicate 6 (EvWorker 0)) s
      = Some (s', [Enqueued 0; Dequeued 0; Invoked 0])
    ∧ env s' = 42
    ∧ get (Future (Some 0%nat)) (channels s') = (Returns 0, Future None).
Proof.
  destruct (run [EvWorker 0; EvWorker 0] (boot 1 41)) as [[s o]|] eqn:E;
    [|vm_compute in E; discriminate].
  assert (Hs : o = [] ∧ pc_of 0 (pool s) = Some Waiting
               ∧ mutex_ (pool s) = None ∧ stop_ (pool s) = false
               ∧ tasks_ (pool s) = [] ∧ channels s = [] ∧ env s = 41).
  { vm_compute in E. injection E as <- <-. repeat split. }
  destruct Hs as (-> & Hpc & Hm & Hstop & Hq & Hc & He).
  destruct (submit_to_idle_worker_round_trip s 0 incr Hpc Hm Hstop Hq)
    as (s' & H1 & _ & H3 & H4 & _).
  rewrite Hc in H1, H4. rewrite He in H3, H4.
  exists s, s'. repeat split; assumption.
Defined.

(** ** Draining the queue *)

Lemma lone_worker_drains (i : nat) (q : list task) :
  forall (s : world) (o : list obs),
  coherent s o ->
  tasks_ (pool s) = q ->
  pc_of i (pool s) = Some LoopTop ->
  mutex_ (pool s) = None ->
  stop_ (pool s) = false ->
  exists s' o',
    run (replicate (7 * length q) (EvWorker i)) s = Some (s', o')
    ∧ tasks_ (pool s') = []
    ∧ pc_of i (pool s') = Some LoopTop
    ∧ env s' = fold_left (fun e t => (fn t e).1) q (env s)
    ∧ deq_ids o' = chan <$> q
    ∧ inv_ids o' = chan <$> q.
Proof.
  induction q as [|t q IH]; intros s o Hco Hq Hpc Hm Hs.
  - exists s, []. done.
  - destruct (worker_takes_next s i t q Hpc Hm Hs Hq)
      as (s2 & Hr2 & Hp2 & Hm2 & Hs2 & Hq2 & He2 & Hc2).
    pose proof (run_coherent _ _ _ _ _ Hco Hr2) as Hco2.
    assert (Hfresh : channels s2 !! chan t = Some None).
    { destruct Hco2 as [_ Hfr _ _ _ _]. rewrite Forall_forall in Hfr.
      by eapply Hfr, running_in_flight. }
    pose proof (run_solo_S 6 i s s2 _ _ _ Hr2 (invoke_fresh s2 i t Hp2 Hfresh))
      as Hr3.
    pose proof (run_coherent _ _ _ _ _ Hco Hr3) as Hco3.
    edestruct (IH _ _ Hco3) as (s' & o' & Hr' & Hq' & Hp' & He' & Hd' & Hi').
    { cbn [pool]. by rewrite tasks_set_pc. }
    { cbn [pool]. apply pc_of_set_pc. rewrite Hp2. eauto. }
    { cbn [pool]. by rewrite mutex_set_pc. }
    { cbn [pool]. by rewrite stop_set_pc. }
    exists s', (([Dequeued (chan t)] ++ [Invoked (chan t)]) ++ o').
    split.
    { replace (7 * length (t :: q))%nat with (7 + 7 * length q)%nat
        by (cbn [length]; lia).
      rewrite replicate_add, run_app, Hr3, Hr'. reflexivity. }
    split; [exact Hq'|]. split; [exact Hp'|]. split.
    { rewrite He'. cbn [env fold_left]. by rewrite He2. }
    rewrite deq_ids_app, inv_ids_app, Hd', Hi'. done.
Qed.

(** X10: a worker alone drains the queue in order. From any state the
    pool reaches in which worker [i] stands at the top of its loop, the
    lock is free and the pool is not stopping, seven transitions of [i]
    per queued task empty the queue: the tasks are dequeued and invoked
    one after the other in queue order, each callable acts on the memory
    the previous one left, and afterwards get delivers on the handle of
    every task that was in the queue. *)
Theorem lone_worker_drains_queue (K : nat) (e0 : Env) (tr : list event)
    (s : world) (o : list obs) (i : nat) :
  run tr (boot K e0) = Some (s, o) ->
  pc_of i (pool s) = Some LoopTop ->
  mutex_ (pool s) = None ->
  stop_ (pool s) = false ->
  exists s' o',
    run (replicate (7 * length (tasks_ (pool s))) (EvWorker i)) s
      = Some (s', o')
    ∧ tasks_ (pool s') = []
    ∧ deq_ids o' = chan <$> tasks_ (pool s)
    ∧ inv_ids o' = chan <$> tasks_ (pool s)
    ∧ env s' = fold_left (fun e t => (fn t e).1) (tasks_ (pool s)) (env s)
    ∧ (forall t, t ∈ tasks_ (pool s) ->
         exists r, (get (Future (Some (chan t))) (channels s')).1 = deliver r)
    ∧ pc_of i (pool s') = Some LoopTop.
Proof.
  intros Hrun Hpc Hm Hs.
  pose proof (reachable_coherent K e0 tr s o Hrun) as Hco.
  destruct (lone_worker_drains i (tasks_ (pool s)) s o Hco eq_refl Hpc Hm Hs)
    as (s' & o' & Hr & Hq & Hp & He & Hd & Hi).
  exists s', o'. repeat (split; [done|]). split; [|done].
  intros t Ht.
  destruct (run_coherent _ _ _ _ _ Hco Hr) as [_ _ _ _ Honce _].
  specialize (Honce (chan t)). rewrite invocations_app in Honce.
  assert (Hpos : (0 < invocations (chan t) o')%nat).
  { unfold invocations. rewrite Hi. apply count_occ_In.
    apply list_elem_of_In, list_elem_of_fmap. eauto. }
  unfold ready_at, get in *. cbn [state].
  destruct (channels s' !! chan t) as [[r|]|]; [by exists r | lia | lia].
Qed.

Lemma lone_worker_drains_queue_witness :
  exists s s' o',
    run [EvEnqueue incr None; EvEnqueue incr None] (boot 1 0)
      = Some (s, [Enqueued 0; Enqueued 1])
    ∧ run (replicate 14 (EvWorker 0)) s = Some (s', o')
    ∧ tasks_ (pool s') = []
    ∧ inv_ids o' = [0; 1]%nat
    ∧ env s' = 2.
Proof.
  destruct (run [EvEnqueue incr None; EvEnqueue incr None] (boot 1 0))
    as [[s o]|] eqn:E; [|vm_compute in E; discriminate].
  assert (Hs : o = [Enqueued 0; Enqueued 1]
               ∧ pc_of 0 (pool s) = Some LoopTop
               ∧ mutex_ (pool s) = None ∧ stop_ (pool s) = false
               ∧ tasks_ (pool s) = [Task 0 incr; Task 1 incr] ∧ env s = 0).
  { vm_compute in E. injection E as <- <-. repeat split. }
  destruct Hs as (-> & Hpc & Hm & Hstop & Hq & He).
  destruct (lone_worker_drains_queue 1 0 _ s _ 0 E Hpc Hm Hstop)
    as (s' & o' & H1 & H2 & _ & H4 & H5 & _).
  rewrite Hq in H1, H4, H5. rewrite He in H5.
  exists s, s', o'. repeat split; assumption.
Defined.

(** ** Conservation of tasks *)

Lemma step_conserves (e : event) (s s1 : world) (o o1 : list obs) :
  coherent s o ->
  length (enq_ids o) = (length (in_flight (pool s)) + length (inv_ids o))%nat ->
  step e s = Some (s1, o1) ->
  length (enq_ids (o ++ o1))
  = (length (in_flight (pool s1)) + length (inv_ids (o ++ o1)))%nat.
Proof.
  intros Hco Hn Hstep. rewrite enq_ids_app, inv_ids_app, !length_app.
  destruct (step_effect e s s1 o1 Hstep)
    as [f w _ Hp _ _ ->|t Hp _ _ _ ->|t i Hp Hc _ _ _ ->|Hp _ _ He1 He2].
  - rewrite Hp, length_app. cbn. lia.
  - rewrite Hp in Hn. cbn in *. lia.
  - destruct Hco as [_ Hfr _ _ _ _]. rewrite Hp in Hfr.
    apply Forall_cons in Hfr as [Hfr _]. done.
  - rewrite Hp, He1, He2. cbn. lia.
Qed.


